(** * The random exploration policy of earthquake/namazu

    A shallow embedding of [earthquake/explorepolicy/random/randompolicy.go]:
    the [Random] policy engine, its configuration loader [LoadConfig], the
    decision function [makeActionForEvent], the enqueue path [QueueEvent] and
    the two background routines.

    Conventions of the embedding:
    - [time.Duration] is an [int64] count of nanoseconds; it is a [Z] here and
      theorems that depend on the 64-bit range say so;
    - [float64] is IEEE 754 binary64 as specified by the standard library's
      [SpecFloat] (precision 53, [emax] 1024), so products are rounded to
      nearest-even exactly as the hardware does;
    - [map[string]bool] is a [gmap string bool];
    - the logging calls have no effect on the engine and are left out;
    - goroutines take turns: [LoadConfig] reports whether it executed
      [go r.shellFaultInjectionRoutine()], the routines are step functions
      over the values they receive, and the process interleaves them, a call
      of [LoadConfig] being cut at the test of its flag. *)

From Stdlib Require Import ZArith QArith Lia List Bool.
From Stdlib Require Import Floats.SpecFloat.
From stdpp Require Import base gmap strings.

Local Open Scope Z_scope.

(** ** float64 *)

Module Float64.

Definition prec : Z := 53.
Definition emax : Z := 1024.

Abbreviation float64 := spec_float.

Definition mul : float64 -> float64 -> float64 := SFmul prec emax.
Definition ltb : float64 -> float64 -> bool := SFltb.

(** The conversion [float64(x)] of an integer: the nearest binary64. *)
Definition of_int (x : Z) : float64 := binary_normalize prec emax x 0 false.

Definition min_int64 : Z := - 2 ^ 63.
Definition max_int64 : Z := 2 ^ 63 - 1.

(** The integer part of a finite float, fraction discarded (truncation
    towards zero); [None] for NaN and the infinities. *)
Definition trunc (x : float64) : option Z :=
  match x with
  | S754_zero _ => Some 0
  | S754_finite s m e =>
      Some (cond_Zopp s
              (match e with
               | Zneg k => Z.pos m / 2 ^ Z.pos k
               | _ => Z.pos m * 2 ^ e
               end))
  | S754_infinity _ | S754_nan => None
  end.

(** The conversions [int(x)] and [time.Duration(x)] of a float. Where the
    value does not fit, Go leaves the result to the implementation; amd64
    yields the smallest [int64], which is what is written here. *)
Definition to_int (x : float64) : Z :=
  match trunc x with
  | Some z => if (min_int64 <=? z) && (z <=? max_int64) then z else min_int64
  | None => min_int64
  end.

(** The rational number that a float stands for (0 where it stands for
    none). *)
Definition to_Q (x : float64) : Q :=
  match x with
  | S754_finite s m e => (inject_Z (cond_Zopp s (Z.pos m)) * Qpower 2 e)%Q
  | _ => 0%Q
  end.

(** The constants of the source, converted to binary64. *)
Definition c0_0 : float64 := S754_zero false.
Definition c1_0 : float64 := S754_finite false 4503599627370496 (-52).
Definition c0_1 : float64 := S754_finite false 7205759403792794 (-56).
Definition c0_8 : float64 := S754_finite false 7205759403792794 (-53).
Definition c1000_0 : float64 := S754_finite false 8796093022208000 (-43).

End Float64.

Import Float64.

(** ** Signals: actions, events, errors *)

(** [signal.Action] values are opaque to the policy; the only one it builds
    itself is the shell action, from a command and its comments. *)
Inductive Action : Type :=
  | ShellAction (command : string) (comments : list (string * string))
  | SignalAction (name : string).

Inductive error : Type :=
  | ErrShellActionInterval (d : Z)
  | ErrFaultActionProbability (p : float64)
  | ErrProcResetSchedProbability (p : float64)
  | ErrSignal (msg : string).

(** A [signal.Event] as the policy sees it: whether its dynamic type is
    [*signal.ProcSetEvent], and what its three methods return. An action of
    interface type may be [nil], hence the options. *)
Record Event : Type := {
  isProcSetEvent : bool;
  EntityID : string;
  DefaultAction : option Action * option error;
  DefaultFaultAction : option Action * option error
}.

(** ** The engine *)

Record TimeBoundedQueueItem : Type := {
  Value : Event;
  minDuration : Z;
  maxDuration : Z
}.

Record Random : Type := {
  (* values sent so far on [nextActionChan] *)
  nextActionChan : list (option Action);
  (* items handed to [queue.Enqueue] so far *)
  queue : list TimeBoundedQueueItem;
  shelActionRoutineRunning : bool;
  MinInterval : Z;
  MaxInterval : Z;
  PrioritizedEntities : gmap string bool;
  ShellActionInterval : Z;
  ShellActionCommand : string;
  FaultActionProbability : float64;
  ProcResetSchedProbability : float64
}.

Definition New : Random := {|
  nextActionChan := [];
  queue := [];
  shelActionRoutineRunning := false;
  MinInterval := 0;
  MaxInterval := 0;
  PrioritizedEntities := ∅;
  ShellActionInterval := 0;
  ShellActionCommand := "";
  FaultActionProbability := c0_0;
  ProcResetSchedProbability := c0_1
|}.

Definition Name : string := "random".

(** ** Configuration *)

(** The [config.Config] source, read through [IsSet] and the typed getters:
    a key that is not set is [None]. A [nil] slice and an empty one add the
    same (no) entries, so both are the empty list. *)
Record Config : Type := {
  explorePolicy : string;
  minInterval : option Z;
  maxInterval : option Z;
  prioritizedEntities : option (list string);
  shellActionInterval : option Z;
  shellActionCommand : option string;
  faultActionProbability : option float64;
  procResetSchedProbability : option float64
}.

(** The loop [for i := 0; i < len(slice); i++ { m[slice[i]] = true }]. *)
Fixpoint prioritize (slice : list string) (m : gmap string bool) : gmap string bool :=
  match slice with
  | [] => m
  | id :: rest => prioritize rest (<[id := true]> m)
  end.

(** What a call of [LoadConfig] leaves behind: the engine, whether the
    statement [go r.shellFaultInjectionRoutine()] was executed, and the
    returned error ([None] is [nil]). *)
Record LoadResult : Type := {
  engine : Random;
  started : bool;
  err : option error
}.

(** Field assignments [r.F = v]. *)
Definition set_nextActionChan (v : list (option Action)) (r : Random) : Random :=
  {| nextActionChan := v;
     queue := queue r;
     shelActionRoutineRunning := shelActionRoutineRunning r;
     MinInterval := MinInterval r;
     MaxInterval := MaxInterval r;
     PrioritizedEntities := PrioritizedEntities r;
     ShellActionInterval := ShellActionInterval r;
     ShellActionCommand := ShellActionCommand r;
     FaultActionProbability := FaultActionProbability r;
     ProcResetSchedProbability := ProcResetSchedProbability r |}.

Definition set_queue (v : list TimeBoundedQueueItem) (r : Random) : Random :=
  {| nextActionChan := nextActionChan r;
     queue := v;
     shelActionRoutineRunning := shelActionRoutineRunning r;
     MinInterval := MinInterval r;
     MaxInterval := MaxInterval r;
     PrioritizedEntities := PrioritizedEntities r;
     ShellActionInterval := ShellActionInterval r;
     ShellActionCommand := ShellActionCommand r;
     FaultActionProbability := FaultActionProbability r;
     ProcResetSchedProbability := ProcResetSchedProbability r |}.

Definition set_shelActionRoutineRunning (v : bool) (r : Random) : Random :=
  {| nextActionChan := nextActionChan r;
     queue := queue r;
     shelActionRoutineRunning := v;
     MinInterval := MinInterval r;
     MaxInterval := MaxInterval r;
     PrioritizedEntities := PrioritizedEntities r;
     ShellActionInterval := ShellActionInterval r;
     ShellActionCommand := ShellActionCommand r;
     FaultActionProbability := FaultActionProbability r;
     ProcResetSchedProbability := ProcResetSchedProbability r |}.

Definition set_MinInterval (v : Z) (r : Random) : Random :=
  {| nextActionChan := nextActionChan r;
     queue := queue r;
     shelActionRoutineRunning := shelActionRoutineRunning r;
     MinInterval := v;
     MaxInterval := MaxInterval r;
     PrioritizedEntities := PrioritizedEntities r;
     ShellActionInterval := ShellActionInterval r;
     ShellActionCommand := ShellActionCommand r;
     FaultActionProbability := FaultActionProbability r;
     ProcResetSchedProbability := ProcResetSchedProbability r |}.

Definition set_MaxInterval (v : Z) (r : Random) : Random :=
  {| nextActionChan := nextActionChan r;
     queue := queue r;
     shelActionRoutineRunning := shelActionRoutineRunning r;
     MinInterval := MinInterval r;
     MaxInterval := v;
     PrioritizedEntities := PrioritizedEntities r;
     ShellActionInterval := ShellActionInterval r;
     ShellActionCommand := ShellActionCommand r;
     FaultActionProbability := FaultActionProbability r;
     ProcResetSchedProbability := ProcResetSchedProbability r |}.

Definition set_PrioritizedEntities (v : gmap string bool) (r : Random) : Random :=
  {| nextActionChan := nextActionChan r;
     queue := queue r;
     shelActionRoutineRunning := shelActionRoutineRunning r;
     MinInterval := MinInterval r;
     MaxInterval := MaxInterval r;
     PrioritizedEntities := v;
     ShellActionInterval := ShellActionInterval r;
     ShellActionCommand := ShellActionCommand r;
     FaultActionProbability := FaultActionProbability r;
     ProcResetSchedProbability := ProcResetSchedProbability r |}.

Definition set_ShellActionInterval (v : Z) (r : Random) : Random :=
  {| nextActionChan := nextActionChan r;
     queue := queue r;
     shelActionRoutineRunning := shelActionRoutineRunning r;
     MinInterval := MinInterval r;
     MaxInterval := MaxInterval r;
     PrioritizedEntities := PrioritizedEntities r;
     ShellActionInterval := v;
     ShellActionCommand := ShellActionCommand r;
     FaultActionProbability := FaultActionProbability r;
     ProcResetSchedProbability := ProcResetSchedProbability r |}.

Definition set_ShellActionCommand (v : string) (r : Random) : Random :=
  {| nextActionChan := nextActionChan r;
     queue := queue r;
     shelActionRoutineRunning := shelActionRoutineRunning r;
     MinInterval := MinInterval r;
     MaxInterval := MaxInterval r;
     PrioritizedEntities := PrioritizedEntities r;
     ShellActionInterval := ShellActionInterval r;
     ShellActionCommand := v;
     FaultActionProbability := FaultActionProbability r;
     ProcResetSchedProbability := ProcResetSchedProbability r |}.

Definition set_FaultActionProbability (v : float64) (r : Random) : Random :=
  {| nextActionChan := nextActionChan r;
     queue := queue r;
     shelActionRoutineRunning := shelActionRoutineRunning r;
     MinInterval := MinInterval r;
     MaxInterval := MaxInterval r;
     PrioritizedEntities := PrioritizedEntities r;
     ShellActionInterval := ShellActionInterval r;
     ShellActionCommand := ShellActionCommand r;
     FaultActionProbability := v;
     ProcResetSchedProbability := ProcResetSchedProbability r |}.

Definition set_ProcResetSchedProbability (v : float64) (r : Random) : Random :=
  {| nextActionChan := nextActionChan r;
     queue := queue r;
     shelActionRoutineRunning := shelActionRoutineRunning r;
     MinInterval := MinInterval r;
     MaxInterval := MaxInterval r;
     PrioritizedEntities := PrioritizedEntities r;
     ShellActionInterval := ShellActionInterval r;
     ShellActionCommand := ShellActionCommand r;
     FaultActionProbability := FaultActionProbability r;
     ProcResetSchedProbability := v |}.

(** [p < 0.0 || p > 1.0]; both comparisons are false on NaN. *)
Definition bad_probability (p : float64) : bool :=
  ltb p c0_0 || ltb c1_0 p.

Arguments bad_probability : simpl never.

Definition LoadConfig (cfg : Config) (r : Random) : LoadResult :=
  let r := match minInterval cfg with
           | Some d => set_MinInterval d r
           | None => r
           end in
  let r := match maxInterval cfg with
           | Some d => set_MaxInterval d r
           | None => set_MaxInterval (MinInterval r) r
           end in
  let r := match prioritizedEntities cfg with
           | Some slice =>
               set_PrioritizedEntities (prioritize slice (PrioritizedEntities r)) r
           | None => r
           end in
  let r := match shellActionInterval cfg with
           | Some d => set_ShellActionInterval d r
           | None => r
           end in
  let r := match shellActionCommand cfg with
           | Some c => set_ShellActionCommand c r
           | None => r
           end in
  if ShellActionInterval r <? 0 then
    {| engine := r; started := false;
       err := Some (ErrShellActionInterval (ShellActionInterval r)) |}
  else
    let start := (0 <? ShellActionInterval r) && negb (shelActionRoutineRunning r) in
    let r := if start then set_shelActionRoutineRunning true r else r in
    let r := match faultActionProbability cfg with
             | Some p => set_FaultActionProbability p r
             | None => r
             end in
    if bad_probability (FaultActionProbability r) then
      {| engine := r; started := start;
         err := Some (ErrFaultActionProbability (FaultActionProbability r)) |}
    else
      let r := match procResetSchedProbability cfg with
               | Some p => set_ProcResetSchedProbability p r
               | None => r
               end in
      if bad_probability (ProcResetSchedProbability r) then
        {| engine := r; started := start;
           err := Some (ErrProcResetSchedProbability (ProcResetSchedProbability r)) |}
      else
        {| engine := r; started := start; err := None |}.

(** A call of [LoadConfig] is not one step of the process. It tests the flag
    [shelActionRoutineRunning] and only then, in the body of the test, sets
    it and starts the routine ("FIXME: not thread safe!" in the source);
    other calls and routines may run in between. [LoadConfig_test] is the
    call up to the evaluated test: the engine it leaves, and either the
    error it returns or the outcome of the test. [LoadConfig_resume] is the
    rest of the call, on the engine as it is when the call goes on. *)
Definition LoadConfig_test (cfg : Config) (r : Random) : Random * (error + bool) :=
  let r := match minInterval cfg with
           | Some d => set_MinInterval d r
           | None => r
           end in
  let r := match maxInterval cfg with
           | Some d => set_MaxInterval d r
           | None => set_MaxInterval (MinInterval r) r
           end in
  let r := match prioritizedEntities cfg with
           | Some slice =>
               set_PrioritizedEntities (prioritize slice (PrioritizedEntities r)) r
           | None => r
           end in
  let r := match shellActionInterval cfg with
           | Some d => set_ShellActionInterval d r
           | None => r
           end in
  let r := match shellActionCommand cfg with
           | Some c => set_ShellActionCommand c r
           | None => r
           end in
  if ShellActionInterval r <? 0 then
    (r, inl (ErrShellActionInterval (ShellActionInterval r)))
  else
    (r, inr ((0 <? ShellActionInterval r) && negb (shelActionRoutineRunning r))).

Definition LoadConfig_resume (cfg : Config) (start : bool) (r : Random)
  : LoadResult :=
  let r := if start then set_shelActionRoutineRunning true r else r in
  let r := match faultActionProbability cfg with
           | Some p => set_FaultActionProbability p r
           | None => r
           end in
  if bad_probability (FaultActionProbability r) then
    {| engine := r; started := start;
       err := Some (ErrFaultActionProbability (FaultActionProbability r)) |}
  else
    let r := match procResetSchedProbability cfg with
             | Some p => set_ProcResetSchedProbability p r
             | None => r
             end in
    if bad_probability (ProcResetSchedProbability r) then
      {| engine := r; started := start;
         err := Some (ErrProcResetSchedProbability (ProcResetSchedProbability r)) |}
    else
      {| engine := r; started := start; err := None |}.

(** ** Deciding an action for an event *)

(** How a routine or a call ends: it goes on with the engine it leaves, or
    it stops the process by [panic]. *)
Inductive outcome : Type :=
  | Continues (r : Random)
  | Panics (r : Random) (e : error).

(** [int(r.FaultActionProbability*1000.0)]. *)
Definition fault_threshold (r : Random) : Z :=
  to_int (mul (FaultActionProbability r) c1000_0).

(** ** Enqueueing an event *)

(** Modelled from the spec: [queue.NewBasicTBQueueItem] is not among the
    sources. The specification says that the construction of a queue item
    fails if the delay bounds are invalid: negative, or the minimum above
    the maximum. *)
Definition NewBasicTBQueueItem (value : Event) (minD maxD : Z)
  : TimeBoundedQueueItem + error :=
  if (minD <? 0) || (maxD <? 0) || (maxD <? minD)
  then inr (ErrSignal "invalid durations")
  else inl {| Value := value; minDuration := minD; maxDuration := maxD |}.

(** [time.Duration(float64(d) * 0.8)]. *)
Definition prioritized_interval (d : Z) : Z :=
  to_int (mul (of_int d) c0_8).

(** The bounds [QueueEvent] hands to the item constructor. *)
Definition queue_bounds (r : Random) (event : Event) : Z * Z :=
  let minInterval := MinInterval r in
  let maxInterval := MaxInterval r in
  match PrioritizedEntities r !! EntityID event with
  | Some _ => (prioritized_interval minInterval, prioritized_interval maxInterval)
  | None => (minInterval, maxInterval)
  end.

Definition QueueEvent (r : Random) (event : Event) : outcome :=
  let '(minInterval, maxInterval) := queue_bounds r event in
  match NewBasicTBQueueItem event minInterval maxInterval with
  | inr e => Panics r e
  | inl item => Continues (set_queue (queue r ++ [item]) r)
  end.

Section Routines.

(** Two functions of the repository that are not part of this file: the
    handler of process-scheduling events and the constructor of shell
    actions. *)
Variable makeActionForProcSetEvent :
  Random -> Event -> option Action * option error.
Variable NewShellAction :
  string -> list (string * string) -> option Action * option error.

(** [draw] is the value of [rand.Intn(999)], an integer of [0, 999); the
    source only draws it on the path that compares it. *)
Definition makeActionForEvent (r : Random) (event : Event) (draw : Z)
  : option Action * option error :=
  if isProcSetEvent event then makeActionForProcSetEvent r event
  else
    let '(defaultAction, defaultActionErr) := DefaultAction event in
    let '(faultAction, faultActionErr) := DefaultFaultAction event in
    match faultAction with
    | None => (defaultAction, defaultActionErr)
    | Some _ =>
        if draw <? fault_threshold r
        then (faultAction, faultActionErr)
        else (defaultAction, defaultActionErr)
    end.

(** [r.nextActionChan <- action] *)
Definition send (action : option Action) (r : Random) : Random :=
  set_nextActionChan (nextActionChan r ++ [action]) r.

(** [dequeueEventRoutine] over the items its channel delivers, each with
    the draw its decision would see. When the items run out the routine
    is blocked on the channel, still looping. *)
Fixpoint dequeueEventRoutine (r : Random)
    (released : list (TimeBoundedQueueItem * Z)) : outcome :=
  match released with
  | [] => Continues r
  | (qItem, draw) :: rest =>
      match makeActionForEvent r (Value qItem) draw with
      | (_, Some e) => Panics r e
      | (action, None) => dequeueEventRoutine (send action r) rest
      end
  end.

(** ** The periodic shell-injection routine *)

Definition shell_comments : list (string * string) :=
  [("comment", "injected by the random explorer")].

(** The check on entry. *)
Definition shellFaultInjectionRoutine_enter (r : Random) : outcome :=
  if ShellActionInterval r =? 0
  then Panics r (ErrSignal "implementation error. should not be called here.")
  else Continues r.

(** One turn of the loop: the delay it sleeps, and what it does after. *)
Definition shellFaultInjectionRoutine_turn (r : Random) : Z * outcome :=
  (ShellActionInterval r,
   match NewShellAction (ShellActionCommand r) shell_comments with
   | (_, Some e) => Panics r e
   | (action, None) => Continues (send action r)
   end).

(** ** The process: the engine, its callers and its routines *)

(** The goroutines of the process take turns, one operation at a time. A
    goroutine that the statement [go r.shellFaultInjectionRoutine()] has
    started runs its first statement, the check on entry, only when it gets
    its turn, on the engine as it is then. *)
Record Process : Type := {
  policy : Random;
  (* calls of [LoadConfig] that have evaluated the test of the flag and not
     yet gone on, each with its source and the outcome of its test *)
  loading : list (Config * bool);
  (* goroutines started for [shellFaultInjectionRoutine] that have not run
     yet *)
  shellPending : nat;
  (* goroutines that passed the check on entry and loop there *)
  shellRoutines : nat;
  (* the panic that ended the process *)
  crashed : option error
}.

Definition boot : Process :=
  {| policy := New; loading := []; shellPending := 0; shellRoutines := 0;
     crashed := None |}.

Inductive operation : Type :=
  (* a call of [LoadConfig] that nothing interrupts *)
  | OpLoadConfig (cfg : Config)
  (* a call of [LoadConfig] up to the test of the flag *)
  | OpLoadConfigTest (cfg : Config)
  (* the call at that place of [loading] goes on to its end *)
  | OpLoadConfigResume (i : nat)
  | OpQueueEvent (event : Event)
  (* the dequeue loop receives an item and decides *)
  | OpDequeue (qItem : TimeBoundedQueueItem) (draw : Z)
  (* a started shell routine gets its first turn: the check on entry *)
  | OpShellEnter
  (* a shell routine in its loop wakes up and sends *)
  | OpShellTurn
  | OpSetHistoryStorage
  | OpActionChan.

(** The process after one of its goroutines went on or panicked. *)
Definition of_outcome (p : Process) (o : outcome) : Process :=
  match o with
  | Continues r =>
      {| policy := r; loading := loading p; shellPending := shellPending p;
         shellRoutines := shellRoutines p; crashed := None |}
  | Panics r e =>
      {| policy := r; loading := loading p; shellPending := shellPending p;
         shellRoutines := shellRoutines p; crashed := Some e |}
  end.

(** The process after a call of [LoadConfig] returned. *)
Definition of_LoadResult (p : Process) (calls : list (Config * bool))
    (res : LoadResult) : Process :=
  {| policy := engine res;
     loading := calls;
     shellPending := if started res then S (shellPending p) else shellPending p;
     shellRoutines := shellRoutines p;
     crashed := None |}.

Definition step (p : Process) (op : operation) : Process :=
  match crashed p with
  | Some _ => p
  | None =>
      let r := policy p in
      match op with
      | OpLoadConfig cfg => of_LoadResult p (loading p) (LoadConfig cfg r)
      | OpLoadConfigTest cfg =>
          match LoadConfig_test cfg r with
          | (r', inl e) =>
              {| policy := r'; loading := loading p;
                 shellPending := shellPending p;
                 shellRoutines := shellRoutines p; crashed := None |}
          | (r', inr start) =>
              {| policy := r'; loading := loading p ++ [(cfg, start)];
                 shellPending := shellPending p;
                 shellRoutines := shellRoutines p; crashed := None |}
          end
      | OpLoadConfigResume i =>
          match loading p !! i with
          | None => p
          | Some (cfg, start) =>
              of_LoadResult p (delete i (loading p)) (LoadConfig_resume cfg start r)
          end
      | OpQueueEvent event => of_outcome p (QueueEvent r event)
      | OpDequeue qItem draw =>
          of_outcome p (dequeueEventRoutine r [(qItem, draw)])
      | OpShellEnter =>
          match shellPending p with
          | O => p
          | S pending =>
              match shellFaultInjectionRoutine_enter r with
              | Continues r' =>
                  {| policy := r'; loading := loading p;
                     shellPending := pending;
                     shellRoutines := S (shellRoutines p); crashed := None |}
              | Panics r' e =>
                  {| policy := r'; loading := loading p;
                     shellPending := pending;
                     shellRoutines := shellRoutines p; crashed := Some e |}
              end
          end
      | OpShellTurn =>
          match shellRoutines p with
          | O => p
          | S _ => of_outcome p (snd (shellFaultInjectionRoutine_turn r))
          end
      | OpSetHistoryStorage | OpActionChan => p
      end
  end.

Definition run (ops : list operation) : Process := fold_left step ops boot.

(** The shell routines that are alive: none once the process has
    panicked. *)
Definition shell_loops (p : Process) : nat :=
  match crashed p with
  | Some _ => O
  | None => shellRoutines p
  end.

End Routines.

(** * Auxiliary definitions *)

(** ** Rounding, in integers *)

(** [n / 2^k] rounded to the nearest integer, ties to the even one. *)
Definition rne_shift (n k : Z) : Z :=
  let q := n / 2 ^ k in
  match 2 * (n mod 2 ^ k) ?= 2 ^ k with
  | Lt => q
  | Eq => if Z.even q then q else q + 1
  | Gt => q + 1
  end.

(** [n] rounded to 53 significant bits. *)
Definition round53 (n : Z) : Z :=
  let k := Zdigits2 n - 53 in
  if k <=? 0 then n else rne_shift n k * 2 ^ k.

(** The float that [SpecFloat] rounds [m * 2^ex] to, sign apart: [m] cut to
    53 bits, the exponent raised by as much, and by one more when the
    rounding carries into a 54th bit. *)
Definition round_finite (s : bool) (m ex : Z) : float64 :=
  let k := Zdigits2 m - 53 in
  if k <=? 0 then S754_finite s (Z.to_pos m) ex
  else
    let q := rne_shift m k in
    if q =? 2 ^ 53 then S754_finite s (Z.to_pos (2 ^ 52)) (ex + k + 1)
    else S754_finite s (Z.to_pos q) (ex + k).

(** The float64 nearest to 0.8 is [M08 / 2^53]. *)
Definition M08 : Z := 7205759403792794.

(** [d * 0.8] as the floats compute it, for a magnitude [d]: [d] rounded to
    53 bits, the product with [M08] rounded to 53 bits, and the 53 fraction
    bits dropped. *)
Definition scaled (d : Z) : Z := round53 (round53 d * M08) / 2 ^ 53.

(** ** Predicates on engines and processes *)

(** The prioritized set after a source has been applied to it. *)
Definition merge_prioritized (key : option (list string)) (m : gmap string bool)
  : gmap string bool :=
  match key with
  | Some slice => prioritize slice m
  | None => m
  end.

(** The configuration of an engine: the seven parameters and the flag. *)
Definition same_config (r r' : Random) : Prop :=
  shelActionRoutineRunning r' = shelActionRoutineRunning r /\
  MinInterval r' = MinInterval r /\
  MaxInterval r' = MaxInterval r /\
  PrioritizedEntities r' = PrioritizedEntities r /\
  ShellActionInterval r' = ShellActionInterval r /\
  ShellActionCommand r' = ShellActionCommand r /\
  FaultActionProbability r' = FaultActionProbability r /\
  ProcResetSchedProbability r' = ProcResetSchedProbability r.

Definition engine_of (o : outcome) : Random :=
  match o with
  | Continues r => r
  | Panics r _ => r
  end.

(** The operations that are one part of a call of [LoadConfig]: a run
    without them is one whose calls of [LoadConfig] do not overlap. *)
Definition partial_call (op : operation) : bool :=
  match op with
  | OpLoadConfigTest _ | OpLoadConfigResume _ => true
  | _ => false
  end.

(** No call of [LoadConfig] is under way, and a shell routine is pending or
    in its loop only if the flag is up, and then only one. *)
Definition shell_invariant (p : Process) : Prop :=
  loading p = [] /\
  (shellPending p + shellRoutines p <=
     if shelActionRoutineRunning (policy p) then 1 else 0)%nat.

(** ** Concrete sources, handlers, events and engines *)

(** A source that sets nothing. *)
Definition no_keys : Config := {|
  explorePolicy := "random";
  minInterval := None;
  maxInterval := None;
  prioritizedEntities := None;
  shellActionInterval := None;
  shellActionCommand := None;
  faultActionProbability := None;
  procResetSchedProbability := None
|}.

(** [minInterval] alone, at 100 ms. *)
Definition only_minInterval : Config := {|
  explorePolicy := "random";
  minInterval := Some 100000000;
  maxInterval := None;
  prioritizedEntities := None;
  shellActionInterval := None;
  shellActionCommand := None;
  faultActionProbability := None;
  procResetSchedProbability := None
|}.

(** 1.5, not a probability. *)
Definition c1_5 : float64 := S754_finite false 6755399441055744 (-52).

(** Intervals of 100 ms and 200 ms, an entity to prioritize, a shell action
    every second, and a fault probability of 1.5. *)
Definition bad_faultActionProbability : Config := {|
  explorePolicy := "random";
  minInterval := Some 100000000;
  maxInterval := Some 200000000;
  prioritizedEntities := Some ["zk1"];
  shellActionInterval := Some 1000000000;
  shellActionCommand := Some "true";
  faultActionProbability := Some c1_5;
  procResetSchedProbability := None
|}.

(** A handler of process-scheduling events that resets nothing. *)
Definition ignore_ProcSetEvent (r : Random) (event : Event)
  : option Action * option error :=
  (Some (SignalAction "ProcSetSchedAction"), None).

(** A constructor of shell actions that always succeeds. *)
Definition build_ShellAction (command : string) (comments : list (string * string))
  : option Action * option error :=
  (Some (ShellAction command comments), None).

(** A packet event of entity [zk1], with both actions. *)
Definition packet_event : Event := {|
  isProcSetEvent := false;
  EntityID := "zk1";
  DefaultAction := (Some (SignalAction "EventAcceptanceAction"), None);
  DefaultFaultAction := (Some (SignalAction "PacketFaultAction"), None)
|}.

(** An event whose default action cannot be obtained, but whose fault action
    can. *)
Definition event_without_default : Event := {|
  isProcSetEvent := false;
  EntityID := "zk1";
  DefaultAction := (None, Some (ErrSignal "no default action"));
  DefaultFaultAction := (Some (SignalAction "PacketFaultAction"), None)
|}.

(** A new engine with a fault probability of 1.0, and one of 0.5. *)
Definition always_fault : Random := set_FaultActionProbability c1_0 New.

Definition c0_5 : float64 := S754_finite false 4503599627370496 (-53).

Definition half_fault : Random := set_FaultActionProbability c0_5 New.

(** A source that sets [shellActionInterval] back to 0. *)
Definition shell_off : Config := {|
  explorePolicy := "random";
  minInterval := None;
  maxInterval := None;
  prioritizedEntities := None;
  shellActionInterval := Some 0;
  shellActionCommand := None;
  faultActionProbability := None;
  procResetSchedProbability := None
|}.

(** A source that is valid throughout: a shell action every second. *)
Definition shell_on : Config := {|
  explorePolicy := "random";
  minInterval := Some 100000000;
  maxInterval := Some 200000000;
  prioritizedEntities := Some ["zk1"];
  shellActionInterval := Some 1000000000;
  shellActionCommand := Some "true";
  faultActionProbability := None;
  procResetSchedProbability := None
|}.

(** An event whose default action cannot be obtained and that has no fault
    action. *)
Definition unsupported_event : Event := {|
  isProcSetEvent := false;
  EntityID := "zk1";
  DefaultAction := (None, Some (ErrSignal "no default action"));
  DefaultFaultAction := (None, None)
|}.

(** ** The draws *)

(** The values of [rand.Intn(999)], all equally likely. *)
Definition draws : list Z := map Z.of_nat (seq 0 999).

(** How many of them take the branch that returns the fault action. *)
Definition fault_draws (r : Random) : Z :=
  Z.of_nat (length (List.filter (fun draw => draw <? fault_threshold r) draws)).

(** The float64 nearest to 0.009, which is a little below it. *)
Definition c0_009 : float64 := S754_finite false 5188146770730811 (-59).

(** A source with intervals of 1 ns and 3 ns that prioritizes [zk1], and the
    engine it configures. *)
Definition tiny_intervals : Config := {|
  explorePolicy := "random";
  minInterval := Some 1;
  maxInterval := Some 3;
  prioritizedEntities := Some ["zk1"];
  shellActionInterval := None;
  shellActionCommand := None;
  faultActionProbability := None;
  procResetSchedProbability := None
|}.

Definition tiny_engine : Random := engine (LoadConfig tiny_intervals New).

(** The engine that [shell_on] configures: 100 ms to 200 ms, [zk1]
    prioritized. *)
Definition shell_engine : Random := engine (LoadConfig shell_on New).

(** ** Sources and engines derived from others *)

(** A source with its two interval keys replaced. *)
Definition with_intervals (mn mx : option Z) (cfg : Config) : Config := {|
  explorePolicy := explorePolicy cfg;
  minInterval := mn;
  maxInterval := mx;
  prioritizedEntities := prioritizedEntities cfg;
  shellActionInterval := shellActionInterval cfg;
  shellActionCommand := shellActionCommand cfg;
  faultActionProbability := faultActionProbability cfg;
  procResetSchedProbability := procResetSchedProbability cfg
|}.

(** Successive calls of [LoadConfig], whatever each one returns. *)
Definition load_all (cfgs : list Config) (r : Random) : Random :=
  fold_left (fun r cfg => engine (LoadConfig cfg r)) cfgs r.

(** All the entity ids that a list of sources asks to prioritize. *)
Definition supplied_entities (cfgs : list Config) : list string :=
  concat (map (fun cfg => default [] (prioritizedEntities cfg)) cfgs).

(** A source with inverted, negative intervals and nothing else. *)
Definition inverted_intervals : Config :=
  with_intervals (Some 5) (Some (-3)) no_keys.

(** A source with a negative shell interval and an invalid probability. *)
Definition negative_shellActionInterval : Config := {|
  explorePolicy := "random";
  minInterval := None;
  maxInterval := None;
  prioritizedEntities := None;
  shellActionInterval := Some (-1);
  shellActionCommand := None;
  faultActionProbability := Some c1_5;
  procResetSchedProbability := None
|}.

(** ** The decisions of the dequeue loop *)


(** An outcome carried on: what follows runs only if nothing panicked. *)
Definition and_then (o : outcome) (next : Random -> outcome) : outcome :=
  match o with
  | Continues r => next r
  | Panics r e => Panics r e
  end.


(** * Properties *)

(** ** The rounding of [SpecFloat], in integers *)

Lemma iter_pos_nat {A : Type} (f : A -> A) (p : positive) (x : A) :
  SpecFloat.iter_pos f p x = Nat.iter (Pos.to_nat p) f x.
Proof.
  revert x. induction p as [p IH | p IH |]; intros x; cbn [SpecFloat.iter_pos].
  - rewrite !IH, Pos2Nat.inj_xI.
    replace (S (2 * Pos.to_nat p))%nat with (Pos.to_nat p + (Pos.to_nat p + 1))%nat by lia.
    rewrite !Nat.iter_add. reflexivity.
  - rewrite !IH, Pos2Nat.inj_xO.
    replace (2 * Pos.to_nat p)%nat with (Pos.to_nat p + Pos.to_nat p)%nat by lia.
    rewrite Nat.iter_add. reflexivity.
  - reflexivity.
Qed.

Lemma shr_1_spec (m : Z) (r s : bool) :
  0 <= m ->
  shr_1 {| shr_m := m; shr_r := r; shr_s := s |} =
  {| shr_m := m / 2; shr_r := Z.odd m; shr_s := r || s |}.
Proof.
  intros Hm. destruct m as [|p|p]; [reflexivity | | lia].
  destruct p as [p|p|]; cbn [shr_1].
  - rewrite Pos2Z.inj_xI. f_equal.
    apply (Z.div_unique _ _ _ 1); lia.
  - rewrite Pos2Z.inj_xO. f_equal.
    apply (Z.div_unique _ _ _ 0); lia.
  - reflexivity.
Qed.

Lemma pow2_pos (k : Z) : 0 <= k -> 0 < 2 ^ k.
Proof. intros Hk. apply Z.pow_pos_nonneg; lia. Qed.

Lemma mod_pow2_succ (m k : Z) :
  0 <= k ->
  m mod 2 ^ (k + 1) = m mod 2 ^ k + 2 ^ k * Z.b2z (Z.testbit m k).
Proof.
  intros Hk. pose proof (pow2_pos k Hk) as Hpos.
  rewrite Z.pow_add_r by lia. rewrite Z.rem_mul_r by lia.
  rewrite Z.testbit_spec' by lia. reflexivity.
Qed.

Lemma shr_iter_spec (k : nat) (m : Z) :
  0 <= m ->
  Nat.iter (S k) shr_1 {| shr_m := m; shr_r := false; shr_s := false |} =
  {| shr_m := m / 2 ^ Z.of_nat (S k);
     shr_r := Z.testbit m (Z.of_nat k);
     shr_s := negb (m mod 2 ^ Z.of_nat k =? 0) |}.
Proof.
  intros Hm. induction k as [|k IH].
  - cbn [Nat.iter]. rewrite shr_1_spec by done.
    change (2 ^ Z.of_nat 1) with 2. change (2 ^ Z.of_nat 0) with 1.
    rewrite Z.bit0_odd, Z.mod_1_r. reflexivity.
  - rewrite Nat.iter_succ, IH.
    pose proof (pow2_pos (Z.of_nat k) ltac:(lia)) as Hk.
    pose proof (pow2_pos (Z.of_nat (S k)) ltac:(lia)) as HSk.
    rewrite shr_1_spec by (apply Z.div_pos; lia).
    f_equal.
    + rewrite Z.div_div by lia. f_equal. rewrite (Nat2Z.inj_succ (S k)).
      rewrite Z.pow_succ_r by lia. lia.
    + rewrite Z.testbit_odd, Z.shiftr_div_pow2 by lia. reflexivity.
    + rewrite (Nat2Z.inj_succ k), <- Z.add_1_r, mod_pow2_succ by lia.
      pose proof (Z.mod_pos_bound m (2 ^ Z.of_nat k) ltac:(lia)).
      destruct (Z.testbit m (Z.of_nat k)); cbn [Z.b2z orb].
      * symmetry. apply negb_true_iff, Z.eqb_neq. lia.
      * rewrite Z.mul_0_r, Z.add_0_r. reflexivity.
Qed.

Lemma Zdigits2_bounds (m : Z) :
  0 < m -> 2 ^ (Zdigits2 m - 1) <= m < 2 ^ Zdigits2 m.
Proof.
  intros Hm. destruct m as [|p|p]; [lia | | lia]. cbn [Zdigits2]. clear Hm.
  induction p as [p IH | p IH |]; cbn [digits2_pos].
  - rewrite Pos2Z.inj_succ, (Pos2Z.inj_xI p).
    replace (Z.succ (Z.pos (digits2_pos p)) - 1)
      with (Z.succ (Z.pos (digits2_pos p) - 1)) by lia.
    rewrite !Z.pow_succ_r by lia. lia.
  - rewrite Pos2Z.inj_succ, (Pos2Z.inj_xO p).
    replace (Z.succ (Z.pos (digits2_pos p)) - 1)
      with (Z.succ (Z.pos (digits2_pos p) - 1)) by lia.
    rewrite !Z.pow_succ_r by lia. lia.
  - cbn. lia.
Qed.

Lemma Zdigits2_pos (m : Z) : 0 < m -> 0 < Zdigits2 m.
Proof. destruct m; cbn; lia. Qed.

Lemma Zdigits2_unique (m d : Z) :
  2 ^ (d - 1) <= m < 2 ^ d -> 0 < d -> Zdigits2 m = d.
Proof.
  intros Hm Hd.
  assert (0 < m) by (pose proof (pow2_pos (d - 1) ltac:(lia)); lia).
  pose proof (Zdigits2_bounds m ltac:(lia)) as Hb.
  pose proof (Zdigits2_pos m ltac:(lia)).
  destruct (Z.lt_trichotomy (Zdigits2 m) d) as [Hlt | [Heq | Hgt]]; [|done|].
  - assert (2 ^ Zdigits2 m <= 2 ^ (d - 1)) by (apply Z.pow_le_mono_r; lia). lia.
  - assert (2 ^ d <= 2 ^ (Zdigits2 m - 1)) by (apply Z.pow_le_mono_r; lia). lia.
Qed.

(** What the shift by [S k] bits and the rounding of [SpecFloat] compute. *)
Lemma round_shr_spec (m : Z) (k : nat) :
  0 <= m ->
  let mrs := Nat.iter (S k) shr_1 {| shr_m := m; shr_r := false; shr_s := false |} in
  round_nearest_even (shr_m mrs) (loc_of_shr_record mrs) =
  rne_shift m (Z.of_nat (S k)).
Proof.
  intros Hm. cbv zeta. rewrite shr_iter_spec by done.
  unfold rne_shift. cbn [shr_m].
  rewrite (Nat2Z.inj_succ k), <- Z.add_1_r, mod_pow2_succ by lia.
  pose proof (pow2_pos (Z.of_nat k) ltac:(lia)) as Hk.
  pose proof (Z.mod_pos_bound m (2 ^ Z.of_nat k) ltac:(lia)) as Hlow.
  rewrite Z.pow_add_r, Z.pow_1_r by lia.
  destruct (Z.testbit m (Z.of_nat k)); cbn [Z.b2z loc_of_shr_record];
    destruct (m mod 2 ^ Z.of_nat k =? 0) eqn:Hs;
    cbn [negb loc_of_shr_record round_nearest_even];
    (apply Z.eqb_eq in Hs || apply Z.eqb_neq in Hs).
  - replace (2 * (m mod 2 ^ Z.of_nat k + 2 ^ Z.of_nat k * 1) ?= 2 ^ Z.of_nat k * 2)
      with Eq by (symmetry; apply Z.compare_eq_iff; lia).
    reflexivity.
  - replace (2 * (m mod 2 ^ Z.of_nat k + 2 ^ Z.of_nat k * 1) ?= 2 ^ Z.of_nat k * 2)
      with Gt by (symmetry; apply Z.compare_gt_iff; lia).
    reflexivity.
  - replace (2 * (m mod 2 ^ Z.of_nat k + 2 ^ Z.of_nat k * 0) ?= 2 ^ Z.of_nat k * 2)
      with Lt by (symmetry; apply Z.compare_lt_iff; lia).
    reflexivity.
  - replace (2 * (m mod 2 ^ Z.of_nat k + 2 ^ Z.of_nat k * 0) ?= 2 ^ Z.of_nat k * 2)
      with Lt by (symmetry; apply Z.compare_lt_iff; lia).
    reflexivity.
Qed.

Lemma rne_shift_cases (n k : Z) :
  rne_shift n k = n / 2 ^ k \/ rne_shift n k = n / 2 ^ k + 1.
Proof.
  unfold rne_shift. destruct (_ ?= _); [destruct (Z.even _)| |]; auto.
Qed.

Lemma div_pow2_bounds (m k d : Z) :
  0 <= k -> 0 <= d ->
  2 ^ (d + k) <= m < 2 ^ (d + k + 1) ->
  2 ^ d <= m / 2 ^ k < 2 ^ (d + 1).
Proof.
  intros Hk Hd. rewrite !Z.pow_add_r, Z.pow_1_r by lia.
  pose proof (pow2_pos k Hk). pose proof (pow2_pos d Hd). intros [Hlo Hhi].
  split.
  - apply Z.div_le_lower_bound; lia.
  - apply Z.div_lt_upper_bound; lia.
Qed.

Lemma rne_shift_bounds (m k : Z) :
  0 < m -> 0 < k -> Zdigits2 m = k + 53 ->
  2 ^ 52 <= rne_shift m k <= 2 ^ 53.
Proof.
  intros Hm Hk Hd.
  pose proof (Zdigits2_bounds m Hm) as Hb. rewrite Hd in Hb.
  assert (H : 2 ^ 52 <= m / 2 ^ k < 2 ^ (52 + 1)).
  { apply div_pow2_bounds; [lia | lia |].
    replace (52 + k) with (k + 53 - 1) by lia.
    replace (k + 53 - 1 + 1) with (k + 53) by lia. exact Hb. }
  change (2 ^ (52 + 1)) with (2 ^ 53) in H.
  destruct (rne_shift_cases m k) as [-> | ->]; lia.
Qed.

Lemma shr_by (m ex k : Z) :
  0 <= m -> 0 < k ->
  shr {| shr_m := m; shr_r := false; shr_s := false |} ex k =
  (Nat.iter (S (Z.to_nat (k - 1))) shr_1
     {| shr_m := m; shr_r := false; shr_s := false |}, ex + k).
Proof.
  intros Hm Hk. destruct k as [|p|p]; [lia | | lia].
  cbn [shr]. rewrite iter_pos_nat. f_equal. f_equal. lia.
Qed.

Lemma binary_round_aux_spec (s : bool) (m ex : Z) :
  0 < m ->
  -1021 <= Zdigits2 m + ex ->
  ex + Z.max (Zdigits2 m - 53) 0 < 971 ->
  binary_round_aux prec emax s m ex loc_Exact = round_finite s m ex.
Proof.
  intros Hm Hlo Hhi.
  unfold binary_round_aux, round_finite, shr_fexp, fexp, emin, prec, emax.
  cbn [shr_record_of_loc].
  rewrite (Z.max_l (Zdigits2 m + ex - 53)) by lia.
  replace (Zdigits2 m + ex - 53 - ex) with (Zdigits2 m - 53) by lia.
  destruct (Zdigits2 m - 53 <=? 0) eqn:Hk.
  - apply Z.leb_le in Hk.
    assert (Hshr : forall mrs, shr mrs ex (Zdigits2 m - 53) = (mrs, ex)).
    { intros mrs. destruct (Zdigits2 m - 53); [reflexivity | lia | reflexivity]. }
    rewrite Hshr. cbn [shr_m loc_of_shr_record round_nearest_even].
    rewrite (Z.max_l (Zdigits2 m + ex - 53)) by lia.
    replace (Zdigits2 m + ex - 53 - ex) with (Zdigits2 m - 53) by lia.
    rewrite Hshr. cbn [shr_m].
    destruct m as [|p|p]; [lia | | lia].
    replace (ex <=? 1024 - 53) with true by (symmetry; apply Z.leb_le; lia).
    reflexivity.
  - apply Z.leb_gt in Hk. set (k := Zdigits2 m - 53) in *.
    rewrite shr_by by lia.
    pose proof (round_shr_spec m (Z.to_nat (k - 1)) ltac:(lia)) as Hround.
    cbv zeta in Hround. rewrite Hround. clear Hround.
    replace (Z.of_nat (S (Z.to_nat (k - 1)))) with k by lia.
    pose proof (rne_shift_bounds m k ltac:(lia) ltac:(lia) ltac:(lia)) as Hq.
    set (q := rne_shift m k) in *.
    destruct (q =? 2 ^ 53) eqn:Hcarry.
    + apply Z.eqb_eq in Hcarry. rewrite Hcarry.
      change (Zdigits2 (2 ^ 53)) with 54.
      rewrite (Z.max_l (54 + (ex + k) - 53)) by lia.
      replace (54 + (ex + k) - 53 - (ex + k)) with 1 by lia.
      cbn [shr iter_pos shr_1 shr_m]. 
      replace (ex + k + 1 <=? 1024 - 53) with true by (symmetry; apply Z.leb_le; lia).
      reflexivity.
    + apply Z.eqb_neq in Hcarry.
      assert (Hd : Zdigits2 q = 53) by (apply Zdigits2_unique; [change (2 ^ (53 - 1)) with (2 ^ 52)|]; lia).
      rewrite Hd.
      rewrite (Z.max_l (53 + (ex + k) - 53)) by lia.
      replace (53 + (ex + k) - 53 - (ex + k)) with 0 by lia.
      cbn [shr shr_m].
      destruct q as [|p|p]; [lia | | lia].
      replace (ex + k <=? 1024 - 53) with true by (symmetry; apply Z.leb_le; lia).
      reflexivity.
Qed.

(** ** Properties of the rounding in integers *)

Lemma Zdigits2_shift (m j : Z) :
  0 < m -> 0 <= j -> Zdigits2 (m * 2 ^ j) = Zdigits2 m + j.
Proof.
  intros Hm Hj. pose proof (Zdigits2_bounds m Hm) as Hb.
  pose proof (Zdigits2_pos m Hm). pose proof (pow2_pos j Hj).
  apply Zdigits2_unique; [|lia].
  replace (Zdigits2 m + j - 1) with (Zdigits2 m - 1 + j) by lia.
  rewrite !Z.pow_add_r by lia. nia.
Qed.

Lemma Zdigits2_mono (a b : Z) : 0 < a -> a <= b -> Zdigits2 a <= Zdigits2 b.
Proof.
  intros Ha Hab.
  pose proof (Zdigits2_bounds a Ha) as HA.
  pose proof (Zdigits2_bounds b ltac:(lia)) as HB.
  pose proof (Zdigits2_pos a Ha).
  destruct (Z.le_gt_cases (Zdigits2 a) (Zdigits2 b)) as [|Hgt]; [done|].
  assert (2 ^ Zdigits2 b <= 2 ^ (Zdigits2 a - 1)) by (apply Z.pow_le_mono_r; lia).
  lia.
Qed.

Lemma rne_shift_exact (q k : Z) :
  0 <= k -> rne_shift (q * 2 ^ k) k = q.
Proof.
  intros Hk. pose proof (pow2_pos k Hk). unfold rne_shift.
  rewrite Z.div_mul, Z.mod_mul by lia.
  replace (2 * 0 ?= 2 ^ k) with Lt by (symmetry; apply Z.compare_lt_iff; lia).
  reflexivity.
Qed.

Lemma rne_shift_scale (m k j : Z) :
  0 <= k -> 0 <= j -> rne_shift (m * 2 ^ j) (k + j) = rne_shift m k.
Proof.
  intros Hk Hj. pose proof (pow2_pos k Hk). pose proof (pow2_pos j Hj).
  unfold rne_shift. rewrite Z.pow_add_r by lia.
  rewrite Z.div_mul_cancel_r by lia.
  rewrite Z.mul_mod_distr_r by lia.
  replace (2 * (m mod 2 ^ k * 2 ^ j) ?= 2 ^ k * 2 ^ j)
    with (2 * (m mod 2 ^ k) ?= 2 ^ k); [reflexivity|].
  rewrite Z.mul_assoc. apply Zmult_compare_compat_r. lia.
Qed.

Lemma round53_scale (m j : Z) :
  0 < m -> 0 <= j -> round53 (m * 2 ^ j) = round53 m * 2 ^ j.
Proof.
  intros Hm Hj. unfold round53. rewrite Zdigits2_shift by lia.
  destruct (Zdigits2 m + j - 53 <=? 0) eqn:Hkj.
  - apply Z.leb_le in Hkj.
    replace (Zdigits2 m - 53 <=? 0) with true by (symmetry; apply Z.leb_le; lia).
    reflexivity.
  - apply Z.leb_gt in Hkj.
    destruct (Zdigits2 m - 53 <=? 0) eqn:Hk.
    + apply Z.leb_le in Hk.
      replace (m * 2 ^ j)
        with (m * 2 ^ (53 - Zdigits2 m) * 2 ^ (Zdigits2 m + j - 53)) at 1.
      * rewrite rne_shift_exact by lia.
        rewrite <- !Z.mul_assoc, <- Z.pow_add_r by lia.
        do 2 f_equal. lia.
      * rewrite <- Z.mul_assoc, <- Z.pow_add_r by lia. do 2 f_equal. lia.
    + apply Z.leb_gt in Hk.
      replace (Zdigits2 m + j - 53) with (Zdigits2 m - 53 + j) by lia.
      rewrite rne_shift_scale by lia.
      rewrite Z.pow_add_r by lia. lia.
Qed.

Lemma rne_shift_mono (a b k : Z) :
  0 <= k -> a <= b -> rne_shift a k <= rne_shift b k.
Proof.
  intros Hk Hab. pose proof (pow2_pos k Hk) as Hp.
  pose proof (Z.div_le_mono a b (2 ^ k) Hp Hab) as Hq.
  pose proof (Z.div_mod a (2 ^ k) ltac:(lia)) as Ha.
  pose proof (Z.div_mod b (2 ^ k) ltac:(lia)) as Hb.
  pose proof (Z.mod_pos_bound a (2 ^ k) Hp).
  pose proof (Z.mod_pos_bound b (2 ^ k) Hp).
  destruct (Z.eq_dec (a / 2 ^ k) (b / 2 ^ k)) as [Heq | Hne].
  - assert (Hr : a mod 2 ^ k <= b mod 2 ^ k) by nia.
    unfold rne_shift. rewrite Heq.
    destruct (Z.compare_spec (2 * (a mod 2 ^ k)) (2 ^ k));
      destruct (Z.compare_spec (2 * (b mod 2 ^ k)) (2 ^ k));
      destruct (Z.even (b / 2 ^ k)); lia.
  - destruct (rne_shift_cases a k) as [-> | ->],
             (rne_shift_cases b k) as [-> | ->]; lia.
Qed.

Lemma round53_bounds (m : Z) :
  0 < m -> 2 ^ (Zdigits2 m - 1) <= round53 m <= 2 ^ Zdigits2 m.
Proof.
  intros Hm. pose proof (Zdigits2_bounds m Hm) as Hb. unfold round53.
  destruct (Zdigits2 m - 53 <=? 0) eqn:Hk; [lia|].
  apply Z.leb_gt in Hk.
  pose proof (rne_shift_bounds m (Zdigits2 m - 53) Hm ltac:(lia) ltac:(lia)) as Hq.
  pose proof (pow2_pos (Zdigits2 m - 53) ltac:(lia)).
  assert (Hlo : 2 ^ (Zdigits2 m - 1) = 2 ^ 52 * 2 ^ (Zdigits2 m - 53))
    by (rewrite <- Z.pow_add_r by lia; f_equal; lia).
  assert (Hhi : 2 ^ Zdigits2 m = 2 ^ 53 * 2 ^ (Zdigits2 m - 53))
    by (rewrite <- Z.pow_add_r by lia; f_equal; lia).
  rewrite Hlo, Hhi. nia.
Qed.

Lemma round53_mono (a b : Z) :
  0 < a -> a <= b -> round53 a <= round53 b.
Proof.
  intros Ha Hab.
  pose proof (Zdigits2_mono a b Ha Hab) as Hd.
  destruct (Z.eq_dec (Zdigits2 a) (Zdigits2 b)) as [Heq | Hne].
  - unfold round53. rewrite Heq.
    destruct (Zdigits2 b - 53 <=? 0) eqn:Hk; [done|].
    apply Z.leb_gt in Hk. pose proof (pow2_pos (Zdigits2 b - 53) ltac:(lia)).
    pose proof (rne_shift_mono a b (Zdigits2 b - 53) ltac:(lia) Hab). nia.
  - pose proof (round53_bounds a Ha) as [_ HA].
    pose proof (round53_bounds b ltac:(lia)) as [HB _].
    pose proof (Zdigits2_pos a Ha).
    assert (2 ^ Zdigits2 a <= 2 ^ (Zdigits2 b - 1)) by (apply Z.pow_le_mono_r; lia).
    lia.
Qed.

(** ** From [SpecFloat] to the integers *)

Lemma round_finite_value (s : bool) (m ex : Z) :
  0 < m ->
  exists (m' : positive) (e' : Z),
    round_finite s m ex = S754_finite s m' e' /\
    ex + Z.max (Zdigits2 m - 53) 0 <= e' <= ex + Z.max (Zdigits2 m - 53) 0 + 1 /\
    Z.pos m' * 2 ^ (e' - ex) = round53 m /\
    (53 <= Zdigits2 m -> 2 ^ 52 <= Z.pos m' < 2 ^ 53).
Proof.
  intros Hm. unfold round_finite, round53.
  pose proof (Zdigits2_bounds m Hm) as Hb.
  destruct (Zdigits2 m - 53 <=? 0) eqn:Hk.
  - apply Z.leb_le in Hk. exists (Z.to_pos m), ex.
    split; [reflexivity|]. split; [lia|]. split.
    + rewrite Z.sub_diag, Z.mul_1_r. lia.
    + intros Hd. assert (Heq : Zdigits2 m = 53) by lia. rewrite Heq in Hb.
      change (2 ^ (53 - 1)) with (2 ^ 52) in Hb. lia.
  - apply Z.leb_gt in Hk. set (k := Zdigits2 m - 53) in *.
    pose proof (rne_shift_bounds m k Hm ltac:(lia) ltac:(lia)) as Hq.
    destruct (rne_shift m k =? 2 ^ 53) eqn:Hcarry.
    + apply Z.eqb_eq in Hcarry. exists (Z.to_pos (2 ^ 52)), (ex + k + 1).
      split; [reflexivity|]. split; [lia|]. split; [|intros _; cbn; lia].
      replace (ex + k + 1 - ex) with (1 + k) by lia.
      rewrite Hcarry, Z.pow_add_r by lia.
      change (Z.pos (Z.to_pos (2 ^ 52))) with (2 ^ 52).
      change (2 ^ 53) with (2 ^ 52 * 2 ^ 1). lia.
    + apply Z.eqb_neq in Hcarry.
      exists (Z.to_pos (rne_shift m k)), (ex + k).
      split; [reflexivity|]. split; [lia|]. rewrite Z2Pos.id by lia.
      split; [|intros _; lia].
      replace (ex + k - ex) with k by lia. reflexivity.
Qed.

Lemma iter_xO (mx n : positive) :
  Z.pos (Pos.iter xO mx n) = Z.pos mx * 2 ^ Z.pos n.
Proof.
  induction n as [|n IH] using Pos.peano_ind.
  - change (Z.pos (Pos.iter xO mx 1)) with (Z.pos mx~0).
    rewrite (Pos2Z.inj_xO mx). change (2 ^ 1) with 2. lia.
  - rewrite Pos.iter_succ, (Pos2Z.inj_xO (Pos.iter xO mx n)), IH.
    rewrite Pos2Z.inj_succ, Z.pow_succ_r by lia. lia.
Qed.

(** [float64(d)] for a positive [d] below [2^64], and for its opposite. *)
Lemma binary_round_int (s : bool) (p : positive) :
  Z.pos p <= 2 ^ 64 ->
  binary_round prec emax s p 0 =
  round_finite s (Z.pos p * 2 ^ Z.max (53 - Zdigits2 (Z.pos p)) 0)
    (- Z.max (53 - Zdigits2 (Z.pos p)) 0).
Proof.
  intros Hp. unfold binary_round, shl_align, fexp, emin, prec, emax.
  change (Z.pos (digits2_pos p)) with (Zdigits2 (Z.pos p)).
  pose proof (Zdigits2_bounds (Z.pos p) ltac:(lia)) as Hb.
  pose proof (Zdigits2_pos (Z.pos p) ltac:(lia)) as Hd.
  assert (Hd65 : Zdigits2 (Z.pos p) <= 65).
  { destruct (Z.le_gt_cases (Zdigits2 (Z.pos p)) 65) as [|Hgt]; [done|].
    assert (2 ^ 65 <= 2 ^ (Zdigits2 (Z.pos p) - 1)) by (apply Z.pow_le_mono_r; lia).
    lia. }
  rewrite Z.add_0_r, (Z.max_l (Zdigits2 (Z.pos p) - 53)) by lia.
  rewrite Z.sub_0_r.
  destruct (Zdigits2 (Z.pos p) - 53) as [|k|k] eqn:Hk.
  - rewrite binary_round_aux_spec by lia.
    replace (Z.max (53 - Zdigits2 (Z.pos p)) 0) with 0 by lia.
    rewrite Z.mul_1_r. reflexivity.
  - rewrite binary_round_aux_spec by lia.
    replace (Z.max (53 - Zdigits2 (Z.pos p)) 0) with 0 by lia.
    rewrite Z.mul_1_r. reflexivity.
  - replace (Z.max (53 - Zdigits2 (Z.pos p)) 0) with (Z.pos k) by lia.
    rewrite iter_xO.
    assert (Hdig : Zdigits2 (Z.pos p * 2 ^ Z.pos k) = 53)
      by (rewrite Zdigits2_shift by lia; lia).
    rewrite binary_round_aux_spec; [| | rewrite Hdig; lia | rewrite Hdig; lia].
    + reflexivity.
    + pose proof (pow2_pos (Z.pos k) ltac:(lia)). nia.
Qed.

Lemma Zdigits2_pow2 (n : Z) : 0 <= n -> Zdigits2 (2 ^ n) = n + 1.
Proof.
  intros Hn. replace (2 ^ n) with (1 * 2 ^ n) by lia.
  rewrite Zdigits2_shift by lia. cbn. lia.
Qed.

Lemma round53_pow2 (n : Z) : 0 <= n -> round53 (2 ^ n) = 2 ^ n.
Proof.
  intros Hn. replace (2 ^ n) with (1 * 2 ^ n) by lia.
  rewrite round53_scale by lia. reflexivity.
Qed.

Lemma round53_pos (m : Z) : 0 < m -> 0 < round53 m.
Proof.
  intros Hm. pose proof (round53_bounds m Hm) as [Hlo _].
  pose proof (Zdigits2_pos m Hm).
  pose proof (pow2_pos (Zdigits2 m - 1) ltac:(lia)). lia.
Qed.

Lemma mul_0_8 (s : bool) (p : positive) :
  Z.pos p <= 2 ^ 63 ->
  exists (m2 : positive) (e2 : Z),
    mul (binary_round prec emax s p 0) c0_8 = S754_finite s m2 e2 /\
    -53 <= e2 /\
    Z.pos m2 * 2 ^ (e2 + 53) = round53 (round53 (Z.pos p) * M08).
Proof.
  intros Hp. rewrite binary_round_int by lia.
  set (d := Z.pos p) in *. set (sh := Z.max (53 - Zdigits2 d) 0).
  assert (Hd : 0 < d) by (unfold d; lia).
  pose proof (pow2_pos sh ltac:(lia)) as Hsh.
  assert (Hdig : Zdigits2 (d * 2 ^ sh) = Zdigits2 d + sh)
    by (apply Zdigits2_shift; lia).
  destruct (round_finite_value s (d * 2 ^ sh) (- sh) ltac:(nia))
    as (m1 & e1 & -> & He1 & Hv1 & Hm1).
  rewrite Hdig in He1, Hm1. specialize (Hm1 ltac:(lia)).
  rewrite round53_scale in Hv1 by lia.
  replace (e1 - - sh) with (e1 + sh) in Hv1 by lia.
  unfold mul, c0_8. cbn [SFmul]. rewrite xorb_false_r.
  rewrite (Pos2Z.inj_mul m1). fold M08.
  assert (HM : 2 ^ 52 <= M08 < 2 ^ 53) by (unfold M08; lia).
  assert (Hprod : 2 ^ 104 <= Z.pos m1 * M08 < 2 ^ 106) by nia.
  assert (Hpd : 105 <= Zdigits2 (Z.pos m1 * M08) <= 106).
  { split.
    - pose proof (Zdigits2_mono (2 ^ 104) (Z.pos m1 * M08) ltac:(lia) ltac:(lia)) as H.
      change (Zdigits2 (2 ^ 104)) with 105 in H. exact H.
    - pose proof (Zdigits2_mono (Z.pos m1 * M08) (2 ^ 106 - 1) ltac:(lia) ltac:(lia)) as H.
      change (Zdigits2 (2 ^ 106 - 1)) with 106 in H. exact H. }
  assert (Hd64 : Zdigits2 d <= 64).
  { pose proof (Zdigits2_mono d (2 ^ 63) Hd Hp) as H.
    rewrite Zdigits2_pow2 in H by lia. lia. }
  assert (Hpos : 0 < Z.pos m1 * M08) by lia.
  pose proof (Zdigits2_pos d Hd) as Hd1.
  rewrite binary_round_aux_spec by lia.
  destruct (round_finite_value s (Z.pos m1 * M08) (e1 + -53) Hpos)
    as (m2 & e2 & -> & He2 & Hv2 & _).
  exists m2, e2. split; [reflexivity|]. split; [lia|].
  pose proof (round53_pos d Hd) as Hrd.
  apply (Z.mul_reg_r _ _ (2 ^ sh)); [lia|].
  rewrite <- round53_scale by nia.
  replace (round53 d * M08 * 2 ^ sh) with (Z.pos m1 * M08 * 2 ^ (e1 + sh))
    by (transitivity (M08 * (round53 d * 2 ^ sh)); [rewrite <- Hv1|]; lia).
  rewrite round53_scale by lia. rewrite <- Hv2.
  rewrite <- !Z.mul_assoc, <- !Z.pow_add_r by lia.
  do 2 f_equal. lia.
Qed.

Lemma round53_53 (m : Z) : 0 <= m < 2 ^ 53 -> round53 m = m.
Proof.
  intros Hm. unfold round53.
  destruct (Z.eq_dec m 0) as [-> | Hne]; [reflexivity|].
  pose proof (Zdigits2_mono m (2 ^ 53 - 1) ltac:(lia) ltac:(lia)) as H.
  change (Zdigits2 (2 ^ 53 - 1)) with 53 in H.
  replace (Zdigits2 m - 53 <=? 0) with true by (symmetry; apply Z.leb_le; lia).
  reflexivity.
Qed.

Lemma scaled_mono (a b : Z) : 0 < a -> a <= b -> scaled a <= scaled b.
Proof.
  intros Ha Hab. unfold scaled.
  apply Z.div_le_mono; [lia|].
  pose proof (round53_pos a Ha). pose proof (round53_mono a b Ha Hab).
  apply round53_mono; unfold M08; lia.
Qed.

Lemma scaled_bounds (d : Z) :
  0 < d <= 2 ^ 63 -> 0 <= scaled d <= 2 ^ 10 * M08.
Proof.
  intros Hd. split.
  - unfold scaled. apply Z.div_pos; [|lia].
    pose proof (round53_pos d ltac:(lia)).
    pose proof (round53_pos (round53 d * M08) ltac:(unfold M08; lia)). lia.
  - etransitivity; [apply (scaled_mono d (2 ^ 63)); lia|].
    unfold scaled. rewrite (round53_pow2 63) by lia.
    rewrite (Z.mul_comm (2 ^ 63)), round53_scale by (unfold M08; lia).
    rewrite (round53_53 M08) by (unfold M08; lia).
    change (2 ^ 63) with (2 ^ 10 * 2 ^ 53).
    rewrite Z.mul_assoc, Z.div_mul by lia. lia.
Qed.

(** The magnitude that [float64(d) * 0.8] is cut to. *)
Lemma to_int_mul_0_8 (s : bool) (p : positive) :
  Z.pos p <= 2 ^ 63 ->
  to_int (mul (binary_round prec emax s p 0) c0_8) =
  cond_Zopp s (scaled (Z.pos p)).
Proof.
  intros Hp.
  destruct (mul_0_8 s p Hp) as (m2 & e2 & -> & He2 & Hv).
  pose proof (scaled_bounds (Z.pos p) ltac:(lia)) as Hb.
  assert (Hmag : match e2 with
                 | Z.neg k => Z.pos m2 / 2 ^ Z.pos k
                 | _ => Z.pos m2 * 2 ^ e2
                 end = scaled (Z.pos p)).
  { unfold scaled. rewrite <- Hv.
    destruct e2 as [|k|k].
    - rewrite Z.div_mul by lia. lia.
    - rewrite Z.pow_add_r, Z.mul_assoc, Z.div_mul by lia. reflexivity.
    - replace (2 ^ 53) with (2 ^ Z.pos k * 2 ^ (Z.neg k + 53))
        by (rewrite <- Z.pow_add_r by lia; f_equal; lia).
      pose proof (pow2_pos (Z.neg k + 53) ltac:(lia)).
      pose proof (pow2_pos (Z.pos k) ltac:(lia)).
      rewrite Z.div_mul_cancel_r by lia. reflexivity. }
  unfold to_int, trunc. rewrite Hmag.
  assert (HM : 2 ^ 10 * M08 < 2 ^ 63) by (unfold M08; lia).
  unfold min_int64, max_int64.
  replace ((- 2 ^ 63 <=? cond_Zopp s (scaled (Z.pos p)))
           && (cond_Zopp s (scaled (Z.pos p)) <=? 2 ^ 63 - 1)) with true;
    [reflexivity|].
  symmetry. apply andb_true_intro.
  split; apply Z.leb_le; destruct s; cbn [cond_Zopp]; lia.
Qed.

(** The scaling of [QueueEvent] in integers, for every [int64]. *)
Lemma prioritized_interval_scaled (d : Z) :
  - 2 ^ 63 <= d <= 2 ^ 63 ->
  prioritized_interval d = Z.sgn d * scaled (Z.abs d).
Proof.
  intros Hd. unfold prioritized_interval, of_int.
  destruct d as [|p|p]; cbn [binary_normalize].
  - reflexivity.
  - rewrite to_int_mul_0_8 by lia.
    change (Z.abs (Z.pos p)) with (Z.pos p). change (Z.sgn (Z.pos p)) with 1.
    cbn [cond_Zopp]. lia.
  - rewrite to_int_mul_0_8 by lia.
    change (Z.abs (Z.neg p)) with (Z.pos p). change (Z.sgn (Z.neg p)) with (-1).
    cbn [cond_Zopp]. lia.
Qed.

Lemma prioritized_interval_mono (a b : Z) :
  - 2 ^ 63 <= a -> a <= b -> b <= 2 ^ 63 ->
  prioritized_interval a <= prioritized_interval b.
Proof.
  intros Ha Hab Hb.
  rewrite !prioritized_interval_scaled by lia.
  destruct (Z.lt_trichotomy a 0) as [Han | [-> | Hap]];
    destruct (Z.lt_trichotomy b 0) as [Hbn | [-> | Hbp]]; try lia.
  - rewrite (Z.sgn_neg a), (Z.sgn_neg b) by lia.
    pose proof (scaled_mono (Z.abs b) (Z.abs a) ltac:(lia) ltac:(lia)). lia.
  - rewrite (Z.sgn_neg a) by lia. change (Z.sgn 0) with 0.
    pose proof (scaled_bounds (Z.abs a) ltac:(lia)). lia.
  - rewrite (Z.sgn_neg a), (Z.sgn_pos b) by lia.
    pose proof (scaled_bounds (Z.abs a) ltac:(lia)).
    pose proof (scaled_bounds (Z.abs b) ltac:(lia)). lia.
  - rewrite (Z.sgn_pos b) by lia. change (Z.sgn 0) with 0.
    pose proof (scaled_bounds (Z.abs b) ltac:(lia)). lia.
  - rewrite (Z.sgn_pos a), (Z.sgn_pos b) by lia.
    pose proof (scaled_mono (Z.abs a) (Z.abs b) ltac:(lia) ltac:(lia)). lia.
Qed.

(** Five times [M08] is [4 * 2^53 + 2]: 0.8 as a float is a little above
    4/5. *)
Lemma M08_times_5 : 5 * M08 = 4 * 2 ^ 53 + 2.
Proof. reflexivity. Qed.

Lemma scaled_multiple_of_5 (k : Z) :
  0 < k -> 5 * k < 2 ^ 53 -> scaled (5 * k) = 4 * k.
Proof.
  intros Hk Hlt. unfold scaled. rewrite (round53_53 (5 * k)) by lia.
  replace (5 * k * M08) with (4 * k * 2 ^ 53 + 2 * k)
    by (pose proof M08_times_5; lia).
  set (D := Zdigits2 (4 * k)).
  pose proof (Zdigits2_bounds (4 * k) ltac:(lia)) as Hb. fold D in Hb.
  assert (HD : 3 <= D <= 53).
  { split.
    - pose proof (Zdigits2_mono 4 (4 * k) ltac:(lia) ltac:(lia)) as H.
      change (Zdigits2 4) with 3 in H. exact H.
    - pose proof (Zdigits2_mono (4 * k) (2 ^ 53 - 1) ltac:(lia) ltac:(lia)) as H.
      change (Zdigits2 (2 ^ 53 - 1)) with 53 in H. exact H. }
  pose proof (pow2_pos (D - 1) ltac:(lia)) as HpD1.
  pose proof (pow2_pos D ltac:(lia)) as HpD.
  pose proof (pow2_pos (53 - D) ltac:(lia)) as Hp53.
  assert (Hpow : 2 ^ D = 2 * 2 ^ (D - 1))
    by (rewrite <- Z.pow_succ_r by lia; f_equal; lia).
  assert (H53 : 2 ^ 53 = 2 ^ (53 - D) * 2 ^ D)
    by (rewrite <- Z.pow_add_r by lia; f_equal; lia).
  assert (Hdig : Zdigits2 (4 * k * 2 ^ 53 + 2 * k) = D + 53).
  { apply Zdigits2_unique; [|lia].
    replace (D + 53 - 1) with (D - 1 + 53) by lia.
    rewrite !Z.pow_add_r by lia. nia. }
  unfold round53. rewrite Hdig.
  replace (D + 53 - 53) with D by lia.
  replace (D <=? 0) with false by (symmetry; apply Z.leb_gt; lia).
  assert (Hq : (4 * k * 2 ^ 53 + 2 * k) / 2 ^ D = 4 * k * 2 ^ (53 - D)).
  { symmetry. apply (Z.div_unique _ _ _ (2 * k)); [lia|]. rewrite H53. lia. }
  assert (Hr : (4 * k * 2 ^ 53 + 2 * k) mod 2 ^ D = 2 * k).
  { symmetry. apply (Z.mod_unique _ _ (4 * k * 2 ^ (53 - D))); [lia|].
    rewrite H53. lia. }
  unfold rne_shift. rewrite Hq, Hr.
  replace (2 * (2 * k) ?= 2 ^ D) with Lt
    by (symmetry; apply Z.compare_lt_iff; lia).
  rewrite <- Z.mul_assoc, <- H53, Z.div_mul by lia. reflexivity.
Qed.

(** On a multiple of 5 ns below [2^53] ns the scaling is exact. *)
Lemma prioritized_interval_multiple_of_5 (k : Z) :
  Z.abs (5 * k) < 2 ^ 53 -> prioritized_interval (5 * k) = 4 * k.
Proof.
  intros Hk. rewrite prioritized_interval_scaled by lia.
  destruct (Z.lt_trichotomy k 0) as [Hn | [-> | Hp]].
  - rewrite Z.sgn_neg by lia.
    replace (Z.abs (5 * k)) with (5 * - k) by lia.
    rewrite scaled_multiple_of_5 by lia. lia.
  - reflexivity.
  - rewrite Z.sgn_pos by lia.
    replace (Z.abs (5 * k)) with (5 * k) by lia.
    rewrite scaled_multiple_of_5 by lia. lia.
Qed.

Lemma rne_shift_below (n g k : Z) :
  0 <= k -> 2 * n < (2 * g - 1) * 2 ^ k -> rne_shift n k <= g - 1.
Proof.
  intros Hk Hn. pose proof (pow2_pos k Hk) as Hp.
  pose proof (Z.div_mod n (2 ^ k) ltac:(lia)) as Hdm.
  pose proof (Z.mod_pos_bound n (2 ^ k) Hp) as Hr.
  unfold rne_shift.
  destruct (Z.compare_spec (2 * (n mod 2 ^ k)) (2 ^ k));
    [destruct (Z.even _)| |]; nia.
Qed.

(** Below [2^50] the scaling is the floor of four fifths. *)
Lemma scaled_floor (d : Z) : 0 <= d < 2 ^ 50 -> scaled d = 4 * d / 5.
Proof.
  intros Hd. destruct (Z.eq_dec d 0) as [-> | Hne]; [reflexivity|].
  unfold scaled. rewrite (round53_53 d) by lia.
  pose proof (Z.div_mod (4 * d) 5 ltac:(lia)) as Hdm.
  pose proof (Z.mod_pos_bound (4 * d) 5 ltac:(lia)) as Hr.
  set (q := 4 * d / 5) in *. set (r := (4 * d) mod 5) in *.
  set (N := d * M08).
  assert (H5N : 5 * N = 5 * q * 2 ^ 53 + r * 2 ^ 53 + 2 * d)
    by (unfold N; pose proof M08_times_5; lia).
  assert (HN : 0 < N < 2 ^ 103) by (unfold N, M08; lia).
  assert (Hbracket : q * 2 ^ 53 <= round53 N < (q + 1) * 2 ^ 53).
  { unfold round53.
    destruct (Zdigits2 N - 53 <=? 0) eqn:Hk; [lia|].
    apply Z.leb_gt in Hk. set (k := Zdigits2 N - 53) in *.
    assert (Hk50 : k <= 50).
    { pose proof (Zdigits2_mono N (2 ^ 103 - 1) ltac:(lia) ltac:(lia)) as H.
      change (Zdigits2 (2 ^ 103 - 1)) with 103 in H. lia. }
    pose proof (pow2_pos k ltac:(lia)) as Hpk.
    pose proof (pow2_pos (53 - k) ltac:(lia)) as Hp53.
    assert (H53 : 2 ^ 53 = 2 ^ (53 - k) * 2 ^ k)
      by (rewrite <- Z.pow_add_r by lia; f_equal; lia).
    assert (Hk' : 2 ^ k <= 2 ^ 50) by (apply Z.pow_le_mono_r; lia).
    split.
    - pose proof (rne_shift_mono (q * 2 ^ (53 - k) * 2 ^ k) N k ltac:(lia)
                    ltac:(rewrite <- Z.mul_assoc, <- H53; lia)) as H.
      rewrite rne_shift_exact in H by lia. nia.
    - pose proof (rne_shift_below N ((q + 1) * 2 ^ (53 - k)) k ltac:(lia)) as H.
      assert (2 * N < (2 * ((q + 1) * 2 ^ (53 - k)) - 1) * 2 ^ k) by nia.
      specialize (H ltac:(assumption)). nia. }
  symmetry. apply (Z.div_unique_pos _ _ _ (round53 N - q * 2 ^ 53)); lia.
Qed.

(** The scaling of an interval below [2^50] ns is four fifths of it, cut
    towards zero to whole nanoseconds. *)
Lemma prioritized_interval_quot (d : Z) :
  Z.abs d < 2 ^ 50 -> prioritized_interval d = Z.quot (4 * d) 5.
Proof.
  intros Hd. rewrite prioritized_interval_scaled by lia.
  rewrite scaled_floor by lia.
  destruct (Z.lt_trichotomy d 0) as [Hn | [-> | Hp]].
  - rewrite Z.sgn_neg by lia.
    replace (4 * d) with (- (4 * Z.abs d)) by lia.
    rewrite Z.quot_opp_l, Z.quot_div_nonneg by lia. lia.
  - reflexivity.
  - rewrite Z.sgn_pos, Z.abs_eq by lia.
    rewrite Z.quot_div_nonneg by lia. lia.
Qed.

(** ** The prioritized set *)

Lemma prioritize_lookup (slice : list string) (m : gmap string bool) (k : string) :
  prioritize slice m !! k = if decide (k ∈ slice) then Some true else m !! k.
Proof.
  revert m. induction slice as [|id rest IH]; intros m.
  - cbn [prioritize]. case_decide as Hin; [by apply elem_of_nil in Hin | done].
  - cbn [prioritize]. rewrite IH.
    destruct (decide (k ∈ rest)) as [Hin | Hout].
    + case_decide as Hc; [done | exfalso; apply Hc; apply elem_of_cons; by right].
    + destruct (decide (k = id)) as [-> | Hne].
      * rewrite lookup_insert_eq.
        case_decide as Hc; [done | exfalso; apply Hc; apply elem_of_cons; by left].
      * rewrite lookup_insert_ne by done.
        case_decide as Hc; [|done].
        apply elem_of_cons in Hc as [? | ?]; contradiction.
Qed.

Lemma prioritize_idempotent (slice : list string) (m : gmap string bool) :
  prioritize slice (prioritize slice m) = prioritize slice m.
Proof.
  apply map_eq. intros k. rewrite !prioritize_lookup.
  by destruct (decide (k ∈ slice)).
Qed.

Lemma prioritize_dom (slice : list string) (m : gmap string bool) :
  dom (prioritize slice m) = dom m ∪ list_to_set slice.
Proof.
  apply set_eq. intros k.
  rewrite elem_of_union, !elem_of_dom, elem_of_list_to_set, prioritize_lookup.
  destruct (decide (k ∈ slice)) as [Hin | Hout].
  - split; [by right | by eauto].
  - split; [by left | by intros [? | ?]].
Qed.

Lemma merge_prioritized_idempotent
    (key : option (list string)) (m : gmap string bool) :
  merge_prioritized key (merge_prioritized key m) = merge_prioritized key m.
Proof. destruct key; [apply prioritize_idempotent | reflexivity]. Qed.

(** The prioritized set that a call of [LoadConfig] leaves. *)
Lemma LoadConfig_PrioritizedEntities (cfg : Config) (r : Random) :
  PrioritizedEntities (engine (LoadConfig cfg r)) =
  match prioritizedEntities cfg with
  | Some slice => prioritize slice (PrioritizedEntities r)
  | None => PrioritizedEntities r
  end.
Proof.
  unfold LoadConfig.
  destruct cfg as [? mn mx pe si sc fp pp], r; simpl.
  destruct mn, mx, pe, si, sc, fp, pp; simpl;
    repeat (match goal with |- context [if ?b then _ else _] => destruct b end;
            simpl); reflexivity.
Qed.

(** ** The configuration loader *)

Ltac load_unfold :=
  cbv beta iota zeta delta
    [LoadConfig engine started err
     set_nextActionChan set_queue set_shelActionRoutineRunning set_MinInterval
     set_MaxInterval set_PrioritizedEntities set_ShellActionInterval
     set_ShellActionCommand set_FaultActionProbability
     set_ProcResetSchedProbability
     nextActionChan queue shelActionRoutineRunning MinInterval MaxInterval
     PrioritizedEntities ShellActionInterval ShellActionCommand
     FaultActionProbability ProcResetSchedProbability
     minInterval maxInterval prioritizedEntities shellActionInterval
     shellActionCommand faultActionProbability procResetSchedProbability
     default from_option id negb andb orb merge_prioritized].

(** [LoadConfig] in one piece: the values the parameters take, and the three
    places where it returns. *)
Lemma LoadConfig_eq (cfg : Config) (r : Random) :
  LoadConfig cfg r =
  let mn := default (MinInterval r) (minInterval cfg) in
  let mx := default mn (maxInterval cfg) in
  let pe := merge_prioritized (prioritizedEntities cfg) (PrioritizedEntities r) in
  let si := default (ShellActionInterval r) (shellActionInterval cfg) in
  let sc := default (ShellActionCommand r) (shellActionCommand cfg) in
  let fp := default (FaultActionProbability r) (faultActionProbability cfg) in
  let pp := default (ProcResetSchedProbability r) (procResetSchedProbability cfg) in
  let start := (0 <? si) && negb (shelActionRoutineRunning r) in
  let running := shelActionRoutineRunning r || start in
  let loaded := Build_Random (nextActionChan r) (queue r) in
  if si <? 0 then
    {| engine := loaded (shelActionRoutineRunning r) mn mx pe si sc
                   (FaultActionProbability r) (ProcResetSchedProbability r);
       started := false;
       err := Some (ErrShellActionInterval si) |}
  else if bad_probability fp then
    {| engine := loaded running mn mx pe si sc fp (ProcResetSchedProbability r);
       started := start;
       err := Some (ErrFaultActionProbability fp) |}
  else if bad_probability pp then
    {| engine := loaded running mn mx pe si sc fp pp;
       started := start;
       err := Some (ErrProcResetSchedProbability pp) |}
  else
    {| engine := loaded running mn mx pe si sc fp pp;
       started := start;
       err := None |}.
Proof.
  destruct cfg as [? [?|] [?|] [?|] [?|] [?|] [?|] [?|]];
    destruct r as [? ? [|] ? ? ? ? ? ? ?]; load_unfold;
    repeat match goal with
           | |- context [Z.ltb ?a ?b] => destruct (Z.ltb a b)
           | |- context [bad_probability ?p] => destruct (bad_probability p)
           end;
    reflexivity.
Qed.

Lemma default_twice {A : Type} (o : option A) (a : A) :
  default (default a o) o = default a o.
Proof. by destruct o. Qed.

Ltac load_fields :=
  cbn [engine started err nextActionChan queue shelActionRoutineRunning
       MinInterval MaxInterval PrioritizedEntities ShellActionInterval
       ShellActionCommand FaultActionProbability ProcResetSchedProbability].

(** The three checks, one after the other. *)
Ltac load_checks :=
  rewrite LoadConfig_eq; cbv zeta;
  repeat match goal with
         | |- context [if ?b then _ else _] =>
             match b with
             | Z.ltb _ 0 => destruct b eqn:?
             | bad_probability _ => destruct b eqn:?
             end
         end;
  load_fields.

(** The first five parameters are assigned before any check. *)
Lemma LoadConfig_early_fields (cfg : Config) (r : Random) :
  let r' := engine (LoadConfig cfg r) in
  MinInterval r' = default (MinInterval r) (minInterval cfg) /\
  MaxInterval r' = default (MinInterval r') (maxInterval cfg) /\
  ShellActionInterval r' = default (ShellActionInterval r) (shellActionInterval cfg) /\
  ShellActionCommand r' = default (ShellActionCommand r) (shellActionCommand cfg).
Proof. cbv zeta. load_checks; auto. Qed.

Lemma LoadConfig_channels (cfg : Config) (r : Random) :
  nextActionChan (engine (LoadConfig cfg r)) = nextActionChan r /\
  queue (engine (LoadConfig cfg r)) = queue r.
Proof. load_checks; auto. Qed.

(** The flag is only ever raised, and exactly by the calls that start the
    routine. *)
Lemma LoadConfig_running (cfg : Config) (r : Random) :
  shelActionRoutineRunning (engine (LoadConfig cfg r)) =
  shelActionRoutineRunning r || started (LoadConfig cfg r).
Proof. load_checks; auto using orb_false_r. Qed.

Lemma LoadConfig_started (cfg : Config) (r : Random) :
  started (LoadConfig cfg r) =
  (0 <? ShellActionInterval (engine (LoadConfig cfg r)))
  && negb (shelActionRoutineRunning r).
Proof.
  load_checks; auto.
  symmetry. apply andb_false_intro1. apply Z.ltb_ge.
  match goal with H : (_ <? 0) = true |- _ => apply Z.ltb_lt in H end. lia.
Qed.

(** After a call the routine runs whenever the interval is positive. *)
Lemma LoadConfig_positive_running (cfg : Config) (r : Random) :
  0 < ShellActionInterval (engine (LoadConfig cfg r)) ->
  shelActionRoutineRunning (engine (LoadConfig cfg r)) = true.
Proof.
  intros H. rewrite LoadConfig_running, LoadConfig_started.
  apply Z.ltb_lt in H. rewrite H. by destruct (shelActionRoutineRunning r).
Qed.

(** ** The two parts of the loader *)

(** A call that nothing interrupts is its first part followed by its
    second. *)
Lemma LoadConfig_split (cfg : Config) (r : Random) :
  LoadConfig cfg r =
  match LoadConfig_test cfg r with
  | (r1, inl e) => {| engine := r1; started := false; err := Some e |}
  | (r1, inr start) => LoadConfig_resume cfg start r1
  end.
Proof.
  unfold LoadConfig, LoadConfig_test, LoadConfig_resume. cbv zeta.
  destruct (_ <? 0); reflexivity.
Qed.

Lemma LoadConfig_test_PrioritizedEntities (cfg : Config) (r : Random) :
  PrioritizedEntities (fst (LoadConfig_test cfg r)) =
  merge_prioritized (prioritizedEntities cfg) (PrioritizedEntities r).
Proof.
  unfold LoadConfig_test. cbv zeta.
  destruct (_ <? 0); cbn [fst];
    destruct (shellActionCommand cfg), (shellActionInterval cfg),
      (prioritizedEntities cfg), (maxInterval cfg), (minInterval cfg);
    reflexivity.
Qed.

(** The first part assigns the interval whatever it returns. *)
Lemma LoadConfig_test_ShellActionInterval (cfg : Config) (r : Random) :
  ShellActionInterval (fst (LoadConfig_test cfg r)) =
  default (ShellActionInterval r) (shellActionInterval cfg).
Proof.
  unfold LoadConfig_test. cbv zeta.
  destruct (_ <? 0); cbn [fst];
    destruct (shellActionCommand cfg), (shellActionInterval cfg),
      (prioritizedEntities cfg), (maxInterval cfg), (minInterval cfg);
    reflexivity.
Qed.

(** The second part touches the flag and the two probabilities only. *)
Lemma LoadConfig_resume_fields (cfg : Config) (start : bool) (r : Random) :
  let r' := engine (LoadConfig_resume cfg start r) in
  started (LoadConfig_resume cfg start r) = start /\
  shelActionRoutineRunning r' = shelActionRoutineRunning r || start /\
  MinInterval r' = MinInterval r /\
  MaxInterval r' = MaxInterval r /\
  PrioritizedEntities r' = PrioritizedEntities r /\
  ShellActionInterval r' = ShellActionInterval r /\
  ShellActionCommand r' = ShellActionCommand r.
Proof.
  unfold LoadConfig_resume. cbv zeta.
  destruct r as [? ? running ? ? ? ? ? ? ?].
  destruct start, running, (faultActionProbability cfg),
    (procResetSchedProbability cfg);
    cbv beta iota delta
      [set_shelActionRoutineRunning set_FaultActionProbability
       set_ProcResetSchedProbability FaultActionProbability
       ProcResetSchedProbability nextActionChan queue
       shelActionRoutineRunning MinInterval MaxInterval PrioritizedEntities
       ShellActionInterval ShellActionCommand];
    repeat match goal with
           | |- context [bad_probability ?p] => destruct (bad_probability p)
           end;
    by repeat split.
Qed.

(** ** What the other operations leave alone *)

Lemma same_config_refl (r : Random) : same_config r r.
Proof. by repeat split. Qed.

Lemma same_config_trans (r1 r2 r3 : Random) :
  same_config r1 r2 -> same_config r2 r3 -> same_config r1 r3.
Proof. unfold same_config. intros H1 H2. intuition congruence. Qed.

Lemma QueueEvent_same_config (r : Random) (event : Event) :
  same_config r (engine_of (QueueEvent r event)).
Proof.
  unfold QueueEvent. destruct (queue_bounds r event) as [mn mx].
  destruct (NewBasicTBQueueItem event mn mx); by repeat split.
Qed.

Section RoutineFacts.

Variable makeActionForProcSetEvent :
  Random -> Event -> option Action * option error.
Variable NewShellAction :
  string -> list (string * string) -> option Action * option error.

Local Abbreviation decide_action := (makeActionForEvent makeActionForProcSetEvent).
Local Abbreviation dequeue := (dequeueEventRoutine makeActionForProcSetEvent).
Local Abbreviation shell_turn :=
  (shellFaultInjectionRoutine_turn NewShellAction).
Local Abbreviation step_ := (step makeActionForProcSetEvent NewShellAction).
Local Abbreviation run_ := (run makeActionForProcSetEvent NewShellAction).

Lemma send_same_config (action : option Action) (r : Random) :
  same_config r (send action r).
Proof. by repeat split. Qed.

Lemma dequeueEventRoutine_same_config
    (released : list (TimeBoundedQueueItem * Z)) (r : Random) :
  same_config r (engine_of (dequeue r released)).
Proof.
  revert r. induction released as [|[qItem draw] rest IH]; intros r.
  - apply same_config_refl.
  - cbn [dequeueEventRoutine].
    destruct (decide_action r (Value qItem) draw) as [action [e|]].
    + apply same_config_refl.
    + eapply same_config_trans; [apply (send_same_config action) | apply IH].
Qed.

Lemma shellFaultInjectionRoutine_turn_same_config (r : Random) :
  same_config r (engine_of (snd (shell_turn r))).
Proof.
  unfold shellFaultInjectionRoutine_turn. cbn [snd].
  destruct (NewShellAction _ _) as [action [e|]]; by repeat split.
Qed.

Lemma policy_of_outcome (p : Process) (o : outcome) :
  policy (of_outcome p o) = engine_of o.
Proof. by destruct o. Qed.

(** What is not a call of [LoadConfig], or a part of one, leaves the
    configuration as it is. *)
Lemma step_same_config (p : Process) (op : operation) :
  (forall cfg, op <> OpLoadConfig cfg) ->
  (forall cfg, op <> OpLoadConfigTest cfg) ->
  (forall i, op <> OpLoadConfigResume i) ->
  same_config (policy p) (policy (step_ p op)).
Proof.
  intros Hop Htest Hresume. unfold step.
  destruct (crashed p); [apply same_config_refl |].
  destruct op as [cfg | cfg | i | event | qItem draw | | | |].
  - by destruct (Hop cfg).
  - by destruct (Htest cfg).
  - by destruct (Hresume i).
  - rewrite policy_of_outcome. apply QueueEvent_same_config.
  - rewrite policy_of_outcome. apply dequeueEventRoutine_same_config.
  - destruct (shellPending p); [apply same_config_refl |].
    unfold shellFaultInjectionRoutine_enter.
    destruct (_ =? 0); apply same_config_refl.
  - destruct (shellRoutines p); [apply same_config_refl |].
    rewrite policy_of_outcome. apply shellFaultInjectionRoutine_turn_same_config.
  - apply same_config_refl.
  - apply same_config_refl.
Qed.

End RoutineFacts.

(** ** Claims about the configuration loader *)

(** C7. [LoadConfig] leaves every parameter whose key is not set at the value
    it had, on every path, with one exception: when [maxInterval] is not set,
    [MaxInterval] becomes the [MinInterval] that the same call leaves, which
    is the configured [minInterval] when that key is set. *)
Theorem LoadConfig_partial_update (cfg : Config) (r : Random) :
  let r' := engine (LoadConfig cfg r) in
  (minInterval cfg = None -> MinInterval r' = MinInterval r) /\
  (maxInterval cfg = None ->
     MaxInterval r' = MinInterval r' /\
     MaxInterval r' = default (MinInterval r) (minInterval cfg)) /\
  (prioritizedEntities cfg = None ->
     PrioritizedEntities r' = PrioritizedEntities r) /\
  (shellActionInterval cfg = None ->
     ShellActionInterval r' = ShellActionInterval r) /\
  (shellActionCommand cfg = None ->
     ShellActionCommand r' = ShellActionCommand r) /\
  (faultActionProbability cfg = None ->
     FaultActionProbability r' = FaultActionProbability r) /\
  (procResetSchedProbability cfg = None ->
     ProcResetSchedProbability r' = ProcResetSchedProbability r).
Proof.
  cbv zeta. load_checks; repeat split; intros;
    repeat match goal with H : _ cfg = None |- _ => rewrite H; clear H end;
    reflexivity.
Qed.

Lemma LoadConfig_partial_update_witness :
  MinInterval (engine (LoadConfig only_minInterval New)) = 100000000 /\
  MaxInterval (engine (LoadConfig only_minInterval New)) = 100000000 /\
  FaultActionProbability (engine (LoadConfig only_minInterval New)) = c0_0.
Proof.
  pose proof (LoadConfig_partial_update only_minInterval New) as H.
  cbv zeta in H.
  destruct H as (_ & Hmax & _ & _ & _ & Hfault & _).
  split; [reflexivity |].
  split; [exact (proj2 (Hmax eq_refl)) | exact (Hfault eq_refl)].
Defined.

(** C8. [LoadConfig] is idempotent: a second call with the same source leaves
    the engine (every parameter, the flag, the channels) as the first call
    left it, starts nothing, and returns what the first call returned. *)
Theorem LoadConfig_idempotent (cfg : Config) (r : Random) :
  LoadConfig cfg (engine (LoadConfig cfg r)) =
  {| engine := engine (LoadConfig cfg r);
     started := false;
     err := err (LoadConfig cfg r) |}.
Proof.
  rewrite (LoadConfig_eq cfg r). cbv zeta.
  destruct (default (ShellActionInterval r) (shellActionInterval cfg) <? 0)
    eqn:Hneg; [|destruct (bad_probability
        (default (FaultActionProbability r) (faultActionProbability cfg)))
        eqn:Hfp; [|destruct (bad_probability
        (default (ProcResetSchedProbability r) (procResetSchedProbability cfg)))
        eqn:Hpp]];
    rewrite LoadConfig_eq; cbv zeta; load_fields;
    rewrite ?default_twice, ?merge_prioritized_idempotent, ?Hneg, ?Hfp, ?Hpp;
    destruct (shelActionRoutineRunning r),
      (0 <? default (ShellActionInterval r) (shellActionInterval cfg));
    reflexivity.
Qed.

(** C9. [LoadConfig] is not atomic. Whenever it returns an error, the engine
    it leaves already carries the intervals, the prioritized entities, the
    shell interval and the shell command of the source; when the error is
    one of the two about probabilities, also the raised flag and the fault
    probability of the source, the rejected value included. Nothing is put
    back: a source whose fault probability is 1.5, loaded into a new engine,
    returns the error and leaves an engine that differs from the new one. *)
Theorem LoadConfig_not_atomic :
  (forall (cfg : Config) (r : Random) (e : error),
     err (LoadConfig cfg r) = Some e ->
     let r' := engine (LoadConfig cfg r) in
     MinInterval r' = default (MinInterval r) (minInterval cfg) /\
     MaxInterval r' = default (MinInterval r') (maxInterval cfg) /\
     PrioritizedEntities r' =
       match prioritizedEntities cfg with
       | Some slice => prioritize slice (PrioritizedEntities r)
       | None => PrioritizedEntities r
       end /\
     ShellActionInterval r' =
       default (ShellActionInterval r) (shellActionInterval cfg) /\
     ShellActionCommand r' =
       default (ShellActionCommand r) (shellActionCommand cfg) /\
     (e = ErrShellActionInterval (ShellActionInterval r') \/
      (0 <= ShellActionInterval r' /\
       shelActionRoutineRunning r' =
         shelActionRoutineRunning r || (0 <? ShellActionInterval r') /\
       FaultActionProbability r' =
         default (FaultActionProbability r) (faultActionProbability cfg) /\
       (e = ErrFaultActionProbability (FaultActionProbability r') \/
        e = ErrProcResetSchedProbability (ProcResetSchedProbability r') /\
        ProcResetSchedProbability r' =
          default (ProcResetSchedProbability r)
            (procResetSchedProbability cfg))))) /\
  (err (LoadConfig bad_faultActionProbability New) =
     Some (ErrFaultActionProbability c1_5) /\
   engine (LoadConfig bad_faultActionProbability New) <> New /\
   MinInterval (engine (LoadConfig bad_faultActionProbability New)) = 100000000 /\
   FaultActionProbability (engine (LoadConfig bad_faultActionProbability New)) =
     c1_5).
Proof.
  split.
  - intros cfg r e. cbv zeta. load_checks; intros He.
    + injection He as <-. repeat split; auto.
    + injection He as <-. repeat split; auto. right.
      match goal with H : (_ <? 0) = false |- _ => apply Z.ltb_ge in H end.
      repeat split; auto.
      destruct (shelActionRoutineRunning r), (0 <? _); reflexivity.
    + injection He as <-. repeat split; auto. right.
      match goal with H : (_ <? 0) = false |- _ => apply Z.ltb_ge in H end.
      repeat split; auto.
      destruct (shelActionRoutineRunning r), (0 <? _); reflexivity.
    + discriminate He.
  - assert (Hload : LoadConfig bad_faultActionProbability New =
                    {| engine :=
                         {| nextActionChan := [];
                            queue := [];
                            shelActionRoutineRunning := true;
                            MinInterval := 100000000;
                            MaxInterval := 200000000;
                            PrioritizedEntities := <["zk1" := true]> ∅;
                            ShellActionInterval := 1000000000;
                            ShellActionCommand := "true";
                            FaultActionProbability := c1_5;
                            ProcResetSchedProbability := c0_1 |};
                       started := true;
                       err := Some (ErrFaultActionProbability c1_5) |})
      by reflexivity.
    rewrite Hload. cbn [engine err MinInterval FaultActionProbability].
    repeat split. intros Heq. discriminate Heq.
Qed.

Lemma LoadConfig_not_atomic_witness :
  MinInterval (engine (LoadConfig bad_faultActionProbability New)) = 100000000.
Proof.
  pose proof (proj1 LoadConfig_not_atomic bad_faultActionProbability New
                (ErrFaultActionProbability c1_5) eq_refl) as H.
  cbv zeta in H. exact (proj1 H).
Defined.

(** ** Claims about the process *)

Section ProcessClaims.

Variable makeActionForProcSetEvent :
  Random -> Event -> option Action * option error.
Variable NewShellAction :
  string -> list (string * string) -> option Action * option error.

Local Abbreviation step_ := (step makeActionForProcSetEvent NewShellAction).
Local Abbreviation run_ := (run makeActionForProcSetEvent NewShellAction).

Lemma run_app (ops more : list operation) :
  run_ (ops ++ more) = fold_left step_ more (run_ ops).
Proof. unfold run. apply fold_left_app. Qed.

Lemma delete_last {A : Type} (l : list A) (x : A) :
  delete (length l) (l ++ [x]) = l.
Proof.
  induction l as [|y l IH]; [done|].
  cbn [length app]. change (y :: delete (length l) (l ++ [x]) = y :: l).
  by rewrite IH.
Qed.

(** A call of [LoadConfig] that nothing interrupts is the step of its
    first part followed at once by the step of its second part. *)
Lemma step_LoadConfig_parts (p : Process) (cfg : Config) :
  step_ (step_ p (OpLoadConfigTest cfg))
    (OpLoadConfigResume (length (loading p))) =
  step_ p (OpLoadConfig cfg).
Proof.
  unfold step. destruct (crashed p) as [e|] eqn:Hcrashed.
  { by rewrite Hcrashed. }
  rewrite (LoadConfig_split cfg (policy p)).
  destruct (LoadConfig_test cfg (policy p)) as [r' [e|start]];
    cbn [crashed loading policy].
  - rewrite lookup_ge_None_2 by done. reflexivity.
  - rewrite lookup_app_r, Nat.sub_diag by done. cbn [lookup list_lookup].
    unfold of_LoadResult. cbn [shellPending shellRoutines loading].
    by rewrite delete_last.
Qed.

(** One operation never takes an entity out of the prioritized set. *)
Lemma step_PrioritizedEntities (p : Process) (op : operation) :
  dom (PrioritizedEntities (policy p)) ⊆
  dom (PrioritizedEntities (policy (step_ p op))).
Proof.
  destruct (crashed p) as [e|] eqn:Hcrashed.
  { unfold step. by rewrite Hcrashed. }
  destruct op as [cfg | cfg | i | event | qItem draw | | | |];
    try (edestruct step_same_config as (_ & _ & _ & -> & _); done).
  - unfold step. rewrite Hcrashed. cbn [of_LoadResult policy].
    rewrite LoadConfig_PrioritizedEntities.
    destruct (prioritizedEntities cfg); [|done].
    rewrite prioritize_dom. set_solver.
  - unfold step. rewrite Hcrashed.
    pose proof (LoadConfig_test_PrioritizedEntities cfg (policy p)) as Hpe.
    destruct (LoadConfig_test cfg (policy p)) as [r' [e|start]];
      cbn [fst policy] in *; rewrite Hpe;
      (destruct (prioritizedEntities cfg); cbn [merge_prioritized]; [|done]);
      rewrite prioritize_dom; set_solver.
  - unfold step. rewrite Hcrashed.
    destruct (loading p !! i) as [[cfg start]|]; [|done].
    cbn [of_LoadResult policy].
    by destruct (LoadConfig_resume_fields cfg start (policy p))
      as (_ & _ & _ & _ & -> & _).
Qed.

Lemma fold_step_PrioritizedEntities (ops : list operation) (p : Process) :
  dom (PrioritizedEntities (policy p)) ⊆
  dom (PrioritizedEntities (policy (fold_left step_ ops p))).
Proof.
  revert p. induction ops as [|op ops IH]; intros p; [done|].
  cbn [fold_left]. etrans; [apply (step_PrioritizedEntities p op) | apply IH].
Qed.

(** C10. The prioritized set only grows. A call of [LoadConfig] adds the
    entities of the [prioritizedEntities] key to those already there (and
    adds none when the key is not set), and whatever sequence of operations
    the process goes through afterwards, an entity that is in the set stays
    in it. *)
Theorem PrioritizedEntities_only_grow :
  (forall (cfg : Config) (r : Random),
     dom (PrioritizedEntities (engine (LoadConfig cfg r))) =
     dom (PrioritizedEntities r)
       ∪ list_to_set (default [] (prioritizedEntities cfg))) /\
  (forall (ops more : list operation) (id : string),
     id ∈ dom (PrioritizedEntities (policy (run_ ops))) ->
     id ∈ dom (PrioritizedEntities (policy (run_ (ops ++ more))))).
Proof.
  split.
  - intros cfg r. rewrite LoadConfig_PrioritizedEntities.
    destruct (prioritizedEntities cfg) as [slice|]; cbn [default from_option id].
    + apply prioritize_dom.
    + by rewrite list_to_set_nil, (right_id_L ∅ (∪)).
  - intros ops more id Hin. rewrite run_app.
    by apply (fold_step_PrioritizedEntities more (run_ ops)).
Qed.

Lemma counts_of_outcome (p : Process) (o : outcome) :
  loading (of_outcome p o) = loading p /\
  shellPending (of_outcome p o) = shellPending p /\
  shellRoutines (of_outcome p o) = shellRoutines p.
Proof. by destruct o. Qed.

Lemma step_shell_invariant (p : Process) (op : operation) :
  partial_call op = false -> shell_invariant p -> shell_invariant (step_ p op).
Proof.
  intros Hop [Hloading Hcount]. unfold shell_invariant.
  destruct (crashed p) as [e|] eqn:Hcrashed.
  { unfold step. rewrite Hcrashed. by split. }
  assert (Hsame : (forall cfg, op <> OpLoadConfig cfg) ->
                  shelActionRoutineRunning (policy (step_ p op)) =
                  shelActionRoutineRunning (policy p)).
  { intros Hload. apply step_same_config; [done | |]; by intros ? ->. }
  destruct op as [cfg | cfg | i | event | qItem draw | | | |];
    try discriminate Hop;
    try (rewrite Hsame by done; clear Hsame);
    unfold step; rewrite Hcrashed.
  - split; [done|]. cbn [of_LoadResult policy shellPending shellRoutines].
    rewrite LoadConfig_running, LoadConfig_started.
    destruct (shelActionRoutineRunning (policy p)), (0 <? _);
      cbn [orb andb negb] in *; lia.
  - destruct (counts_of_outcome p (QueueEvent (policy p) event))
      as (-> & -> & ->). by split.
  - destruct (counts_of_outcome p
                (dequeueEventRoutine makeActionForProcSetEvent (policy p)
                   [(qItem, draw)])) as (-> & -> & ->). by split.
  - destruct (shellPending p) as [|pending] eqn:Hpending;
      [rewrite Hpending; split; [done | lia] |].
    destruct (shellFaultInjectionRoutine_enter (policy p));
      cbn [loading shellPending shellRoutines];
      (split; [done|]); destruct (shelActionRoutineRunning _); lia.
  - destruct (shellRoutines p) as [|n] eqn:Hn; [rewrite Hn; by split|].
    destruct (counts_of_outcome p
                (snd (shellFaultInjectionRoutine_turn NewShellAction (policy p))))
      as (-> & -> & ->). rewrite Hn. by split.
  - by split.
  - by split.
Qed.

Lemma run_shell_invariant (ops : list operation) :
  forallb (fun op => negb (partial_call op)) ops = true ->
  shell_invariant (run_ ops).
Proof.
  unfold run.
  assert (Hboot : shell_invariant boot) by (split; [reflexivity | cbn; lia]).
  revert Hboot. generalize boot.
  induction ops as [|op ops IH]; intros p Hp Hops; [done|].
  cbn [forallb] in Hops. apply andb_prop in Hops as [Hop Hops].
  cbn [fold_left]. apply IH; [|done].
  apply step_shell_invariant; [|done]. by destruct (partial_call op).
Qed.

(** C4. The code does not keep the claim. The goroutine that [LoadConfig]
    starts reads the interval when it first runs, not when it is started:
    if a call of [LoadConfig] has set the interval to 0 in between, the
    check on entry fails, the process panics and no shell routine is left,
    so this reconfiguration does stop it. Such a state is reached by one
    call that leaves the interval positive. And as the flag is tested and
    set in two steps, two calls of [LoadConfig] on a new engine that both
    test the flag before either sets it start one routine each, and both
    reach their loop. *)
Theorem shell_routine_races :
  (forall (p : Process) (cfg : Config),
     crashed p = None ->
     shellPending p <> 0%nat ->
     shellActionInterval cfg = Some 0 ->
     let p' := step_ (step_ p (OpLoadConfig cfg)) OpShellEnter in
     crashed p' =
       Some (ErrSignal "implementation error. should not be called here.") /\
     shell_loops p' = 0%nat) /\
  (let p := run_ [OpLoadConfig shell_on] in
   crashed p = None /\ shellPending p = 1%nat /\
   shelActionRoutineRunning (policy p) = true) /\
  (let p := run_ [OpLoadConfigTest shell_on; OpLoadConfigTest shell_on;
                  OpLoadConfigResume 0; OpLoadConfigResume 0;
                  OpShellEnter; OpShellEnter] in
   crashed p = None /\ loading p = [] /\ shellPending p = 0%nat /\
   shell_loops p = 2%nat).
Proof.
  split; [|split].
  - intros p cfg Hcrashed Hpending Hzero. cbv zeta.
    assert (Hstep : step_ p (OpLoadConfig cfg) =
                    of_LoadResult p (loading p) (LoadConfig cfg (policy p))).
    { unfold step. by rewrite Hcrashed. }
    rewrite Hstep.
    destruct (LoadConfig_early_fields cfg (policy p)) as (_ & _ & Hinterval & _).
    rewrite Hzero in Hinterval. cbn [default from_option] in Hinterval.
    pose proof (LoadConfig_started cfg (policy p)) as Hstarted.
    rewrite Hinterval in Hstarted. cbn [Z.ltb Z.compare andb] in Hstarted.
    unfold step, of_LoadResult. cbn [crashed policy shellPending].
    rewrite Hstarted.
    destruct (shellPending p) as [|pending]; [done|].
    unfold shellFaultInjectionRoutine_enter. rewrite Hinterval.
    cbn [Z.eqb]. by split.
  - by repeat split.
  - by repeat split.
Qed.

End ProcessClaims.

Lemma shell_routine_races_witness :
  crashed
    (step ignore_ProcSetEvent build_ShellAction
       (step ignore_ProcSetEvent build_ShellAction
          (run ignore_ProcSetEvent build_ShellAction [OpLoadConfig shell_on])
          (OpLoadConfig shell_off))
       OpShellEnter) =
    Some (ErrSignal "implementation error. should not be called here.") /\
  shell_loops
    (step ignore_ProcSetEvent build_ShellAction
       (step ignore_ProcSetEvent build_ShellAction
          (run ignore_ProcSetEvent build_ShellAction [OpLoadConfig shell_on])
          (OpLoadConfig shell_off))
       OpShellEnter) = 0%nat.
Proof.
  apply (proj1 (shell_routine_races ignore_ProcSetEvent build_ShellAction)
           (run ignore_ProcSetEvent build_ShellAction [OpLoadConfig shell_on])
           shell_off); [reflexivity | discriminate | reflexivity].
Defined.

Lemma PrioritizedEntities_only_grow_witness :
  "zk1" ∈ dom (PrioritizedEntities
                 (policy (run ignore_ProcSetEvent build_ShellAction
                            ([OpLoadConfig shell_on]
                               ++ [OpLoadConfig shell_off; OpShellTurn])))).
Proof.
  apply (proj2 (PrioritizedEntities_only_grow ignore_ProcSetEvent build_ShellAction)
           [OpLoadConfig shell_on] [OpLoadConfig shell_off; OpShellTurn] "zk1").
  apply elem_of_dom. exists true. reflexivity.
Defined.

(** ** Claims about the decision *)

Lemma fault_threshold_0 (r : Random) :
  FaultActionProbability r = c0_0 -> fault_threshold r = 0.
Proof. unfold fault_threshold. by intros ->. Qed.

Lemma fault_threshold_1 (r : Random) :
  FaultActionProbability r = c1_0 -> fault_threshold r = 1000.
Proof. unfold fault_threshold. by intros ->. Qed.

(** The product is the float64 one, rounded before it is cut: the float
    nearest to 0.009 times 1000 is below 9 as a rational number, and 9.0 as
    a float64. *)
Lemma fault_threshold_0_009 :
  (to_Q c0_009 * 1000 < 9)%Q /\
  mul c0_009 c1000_0 = of_int 9 /\
  fault_threshold (set_FaultActionProbability c0_009 New) = 9.
Proof. split; [reflexivity|]. split; reflexivity. Qed.

(** The decision for an event that is not a process-scheduling event. *)
Lemma makeActionForEvent_cases
    (handler : Random -> Event -> option Action * option error)
    (r : Random) (event : Event) (draw : Z) :
  isProcSetEvent event = false ->
  makeActionForEvent handler r event draw =
  match fst (DefaultFaultAction event) with
  | None => DefaultAction event
  | Some _ =>
      if draw <? fault_threshold r
      then DefaultFaultAction event
      else DefaultAction event
  end.
Proof.
  intros Hkind. unfold makeActionForEvent. rewrite Hkind.
  destruct (DefaultAction event) as [da de], (DefaultFaultAction event) as [[fa|] fe];
    reflexivity.
Qed.

(** C1. For an event that is not a process-scheduling event: without a fault
    action the decision is the default action, whatever the probability; with
    one, and a draw of [0, 998], the decision is the fault action exactly
    when the draw is below [int(faultActionProbability * 1000.0)], the
    float64 product cut to its integer part; that threshold is 0 for
    probability 0.0, so the decision is never the fault action, and 1000 for
    probability 1.0, so it always is. *)
Theorem makeActionForEvent_decision
    (handler : Random -> Event -> option Action * option error)
    (r : Random) (event : Event) (draw : Z) :
  isProcSetEvent event = false ->
  0 <= draw <= 998 ->
  let decision := makeActionForEvent handler r event draw in
  (fst (DefaultFaultAction event) = None -> decision = DefaultAction event) /\
  (fst (DefaultFaultAction event) <> None ->
     fault_threshold r = to_int (mul (FaultActionProbability r) c1000_0) /\
     (draw < fault_threshold r -> decision = DefaultFaultAction event) /\
     (~ draw < fault_threshold r -> decision = DefaultAction event)) /\
  (FaultActionProbability r = c0_0 ->
     fault_threshold r = 0 /\ decision = DefaultAction event) /\
  (FaultActionProbability r = c1_0 ->
     fault_threshold r = 1000 /\
     (fst (DefaultFaultAction event) <> None ->
      decision = DefaultFaultAction event)).
Proof.
  intros Hkind Hdraw. cbv zeta. rewrite makeActionForEvent_cases by done.
  split; [|split; [|split]].
  - by intros ->.
  - intros Hfault. destruct (fst (DefaultFaultAction event)); [|done].
    split; [reflexivity|]. split; intros Hlt.
    + apply Z.ltb_lt in Hlt. by rewrite Hlt.
    + apply Z.ltb_nlt in Hlt. by rewrite Hlt.
  - intros Hp. rewrite (fault_threshold_0 r Hp). split; [reflexivity|].
    destruct (fst (DefaultFaultAction event)); [|done].
    destruct (draw <? 0) eqn:Hlt; [|done]. apply Z.ltb_lt in Hlt. lia.
  - intros Hp. rewrite (fault_threshold_1 r Hp). split; [reflexivity|].
    intros Hfault. destruct (fst (DefaultFaultAction event)); [|done].
    destruct (draw <? 1000) eqn:Hlt; [done|]. apply Z.ltb_ge in Hlt. lia.
Qed.

Lemma makeActionForEvent_decision_witness :
  makeActionForEvent ignore_ProcSetEvent always_fault packet_event 998 =
  (Some (SignalAction "PacketFaultAction"), None).
Proof.
  pose proof (makeActionForEvent_decision ignore_ProcSetEvent always_fault
                packet_event 998 eq_refl ltac:(lia)) as H.
  cbv zeta in H. destruct H as (_ & _ & _ & H).
  destruct (H eq_refl) as [_ Hfault]. apply Hfault. discriminate.
Defined.

(** C5, as the specification states it, fails: the default action of
    [event_without_default] cannot be obtained, yet with probability 1.0 the
    decision is its fault action with no error, and the loop sends it and
    goes on. *)
Lemma default_action_error_dropped :
  snd (DefaultAction event_without_default) =
    Some (ErrSignal "no default action") /\
  makeActionForEvent ignore_ProcSetEvent always_fault event_without_default 0 =
    (Some (SignalAction "PacketFaultAction"), None) /\
  dequeueEventRoutine ignore_ProcSetEvent always_fault
    [({| Value := event_without_default; minDuration := 0; maxDuration := 0 |}, 0)] =
    Continues (send (Some (SignalAction "PacketFaultAction")) always_fault).
Proof. repeat split. Qed.

(** C5, amended. For an event that is not a process-scheduling event the
    decision comes with the error of the action that is decided: whenever
    the decision is the default action (always, for an event without a fault
    action), a failure to obtain the default action is the error returned;
    when it is the fault action, the error returned is the one of the fault
    action. For every event, an error returned by the decision stops the
    loop by panic: nothing is sent for the event, and neither it nor any
    later item is decided again. *)
Theorem decision_error_is_fatal
    (handler : Random -> Event -> option Action * option error)
    (r : Random) (qItem : TimeBoundedQueueItem) (draw : Z)
    (rest : list (TimeBoundedQueueItem * Z)) :
  let event := Value qItem in
  let decision := makeActionForEvent handler r event draw in
  (isProcSetEvent event = false ->
   (fst (DefaultFaultAction event) = None \/ ~ draw < fault_threshold r ->
    decision = DefaultAction event) /\
   (fst (DefaultFaultAction event) <> None /\ draw < fault_threshold r ->
    decision = DefaultFaultAction event)) /\
  (forall e : error,
     snd decision = Some e ->
     dequeueEventRoutine handler r ((qItem, draw) :: rest) = Panics r e) /\
  (snd decision = None ->
   dequeueEventRoutine handler r ((qItem, draw) :: rest) =
   dequeueEventRoutine handler (send (fst decision) r) rest).
Proof.
  cbv zeta. split; [|split].
  - intros Hkind. rewrite makeActionForEvent_cases by done. split.
    + intros [-> | Hge]; [done|].
      destruct (fst (DefaultFaultAction _)); [|done].
      apply Z.ltb_nlt in Hge. by rewrite Hge.
    + intros [Hfault Hlt].
      destruct (fst (DefaultFaultAction _)); [|done].
      apply Z.ltb_lt in Hlt. by rewrite Hlt.
  - intros e He. cbn [dequeueEventRoutine].
    destruct (makeActionForEvent handler r (Value qItem) draw) as [a oe].
    cbn [snd] in He. by rewrite He.
  - intros He. cbn [dequeueEventRoutine].
    destruct (makeActionForEvent handler r (Value qItem) draw) as [a oe].
    cbn [snd] in He. by rewrite He.
Qed.

Lemma decision_error_is_fatal_witness :
  dequeueEventRoutine ignore_ProcSetEvent always_fault
    [({| Value := unsupported_event; minDuration := 0; maxDuration := 0 |}, 0);
     ({| Value := packet_event; minDuration := 0; maxDuration := 0 |}, 0)] =
  Panics always_fault (ErrSignal "no default action").
Proof.
  apply (proj1 (proj2 (decision_error_is_fatal ignore_ProcSetEvent always_fault
           {| Value := unsupported_event; minDuration := 0; maxDuration := 0 |}
           0 _))).
  reflexivity.
Defined.

(** ** Claims about the probability of the fault action *)

Lemma In_draws (draw : Z) : In draw draws <-> 0 <= draw <= 998.
Proof.
  unfold draws. rewrite in_map_iff. split.
  - intros (n & <- & Hn). apply in_seq in Hn. lia.
  - intros Hd. exists (Z.to_nat draw). split; [lia|]. apply in_seq. lia.
Qed.

Lemma count_below (t : Z) (n : nat) :
  Z.of_nat (length (List.filter (fun draw => draw <? t) (map Z.of_nat (seq 0 n)))) =
  Z.min (Z.max t 0) (Z.of_nat n).
Proof.
  induction n as [|n IH]; [cbn; lia|].
  rewrite seq_S, map_app, List.filter_app, length_app, Nat2Z.inj_add, IH.
  cbn [Nat.add map List.filter].
  destruct (Z.of_nat n <? t) eqn:Hlt; cbn [length].
  - apply Z.ltb_lt in Hlt. lia.
  - apply Z.ltb_ge in Hlt. lia.
Qed.

(** C2, as the specification states it, fails: with probability 0.5 the
    fault branch is taken by 500 of the 999 draws, and 500/999 is not 1/2. *)
Lemma fault_fraction_is_not_p :
  (to_Q (FaultActionProbability half_fault) == 1 # 2)%Q /\
  fault_draws half_fault = 500 /\
  ~ (fault_draws half_fault # 999 == to_Q (FaultActionProbability half_fault))%Q.
Proof.
  split; [reflexivity|]. split; [by vm_compute|].
  vm_compute. discriminate.
Qed.

(** C2, amended. The draws are the integers of [0, 998]; for an event with a
    fault action that is not a process-scheduling event, a draw decides for
    the fault action exactly when it is below
    [int(faultActionProbability * 1000.0)]; so the number of draws that do,
    out of 999, is that threshold cut to [0, 999]. It is 0 for probability
    0.0 and 999, all of them, for probability 1.0. *)
Theorem fault_draws_count
    (handler : Random -> Event -> option Action * option error)
    (r : Random) (event : Event) :
  isProcSetEvent event = false ->
  fst (DefaultFaultAction event) <> None ->
  (forall draw : Z, In draw draws <-> 0 <= draw <= 998) /\
  (forall draw : Z,
     makeActionForEvent handler r event draw =
     if draw <? fault_threshold r
     then DefaultFaultAction event else DefaultAction event) /\
  fault_draws r = Z.min (Z.max (fault_threshold r) 0) 999 /\
  (FaultActionProbability r = c0_0 -> fault_draws r = 0) /\
  (FaultActionProbability r = c1_0 -> fault_draws r = 999).
Proof.
  intros Hkind Hfault.
  assert (Hcount : fault_draws r = Z.min (Z.max (fault_threshold r) 0) 999)
    by apply (count_below (fault_threshold r) 999).
  split; [apply In_draws|]. split; [|split; [exact Hcount|split]].
  - intros draw. rewrite makeActionForEvent_cases by done.
    by destruct (fst (DefaultFaultAction event)).
  - intros Hp. by rewrite Hcount, (fault_threshold_0 r Hp).
  - intros Hp. by rewrite Hcount, (fault_threshold_1 r Hp).
Qed.

Lemma fault_draws_count_witness : fault_draws always_fault = 999.
Proof.
  pose proof (fault_draws_count ignore_ProcSetEvent always_fault packet_event
                eq_refl ltac:(discriminate)) as (_ & _ & _ & _ & H).
  exact (H eq_refl).
Defined.

(** ** Claims about the enqueue path *)

Lemma prioritized_interval_100ms : prioritized_interval 100000000 = 80000000.
Proof. reflexivity. Qed.

(** The item that [QueueEvent] submits carries the bounds it computed. *)
Lemma QueueEvent_item (r r' : Random) (event : Event) :
  QueueEvent r event = Continues r' ->
  exists item : TimeBoundedQueueItem,
    r' = set_queue (queue r ++ [item]) r /\
    Value item = event /\
    (minDuration item, maxDuration item) = queue_bounds r event.
Proof.
  unfold QueueEvent. destruct (queue_bounds r event) as [mn mx].
  unfold NewBasicTBQueueItem. destruct (_ || _); [discriminate|].
  intros [= <-]. eexists. split; [reflexivity|]. split; reflexivity.
Qed.

(** C3, as the specification states it, fails: with intervals of 1 ns and
    3 ns and the entity prioritized, the bounds are 0 ns and 2 ns, not 0.8 ns
    and 2.4 ns. *)
Lemma prioritized_bounds_not_exact :
  PrioritizedEntities tiny_engine !! EntityID packet_event = Some true /\
  MinInterval tiny_engine = 1 /\
  MaxInterval tiny_engine = 3 /\
  queue_bounds tiny_engine packet_event = (0, 2) /\
  ~ (inject_Z (fst (queue_bounds tiny_engine packet_event)) ==
     (8 # 10) * inject_Z (MinInterval tiny_engine))%Q /\
  ~ (inject_Z (snd (queue_bounds tiny_engine packet_event)) ==
     (8 # 10) * inject_Z (MaxInterval tiny_engine))%Q.
Proof.
  assert (Hb : queue_bounds tiny_engine packet_event = (0, 2)) by reflexivity.
  rewrite Hb. repeat split; intros H; vm_compute in H; discriminate H.
Qed.

(** C3, amended. The item that [QueueEvent] submits carries the configured
    intervals when the entity of the event is not prioritized; when it is,
    each bound is [time.Duration(float64(x) * 0.8)] of the configured [x]:
    for [x] of magnitude below [2^50] ns that is four fifths of [x] cut
    towards zero to whole nanoseconds, and it is exactly four fifths of [x]
    whenever [x] is a multiple of 5 ns of magnitude below [2^53] ns. *)
Theorem QueueEvent_bounds (r : Random) (event : Event) :
  let bounds := queue_bounds r event in
  (forall r' : Random,
     QueueEvent r event = Continues r' ->
     exists item : TimeBoundedQueueItem,
       queue r' = queue r ++ [item] /\
       Value item = event /\
       (minDuration item, maxDuration item) = bounds) /\
  (PrioritizedEntities r !! EntityID event = None ->
   bounds = (MinInterval r, MaxInterval r)) /\
  (PrioritizedEntities r !! EntityID event <> None ->
   bounds = (to_int (mul (of_int (MinInterval r)) c0_8),
             to_int (mul (of_int (MaxInterval r)) c0_8)) /\
   (Z.abs (MinInterval r) < 2 ^ 50 ->
    fst bounds = Z.quot (4 * MinInterval r) 5) /\
   (Z.abs (MaxInterval r) < 2 ^ 50 ->
    snd bounds = Z.quot (4 * MaxInterval r) 5) /\
   (forall k : Z,
      MinInterval r = 5 * k -> Z.abs (5 * k) < 2 ^ 53 -> fst bounds = 4 * k) /\
   (forall k : Z,
      MaxInterval r = 5 * k -> Z.abs (5 * k) < 2 ^ 53 -> snd bounds = 4 * k)).
Proof.
  cbv zeta. split; [|split].
  - intros r' Hq. destruct (QueueEvent_item r r' event Hq) as (item & -> & Hv & Hb).
    exists item. split; [reflexivity|]. by split.
  - unfold queue_bounds. by intros ->.
  - unfold queue_bounds. intros Hprio.
    destruct (PrioritizedEntities r !! EntityID event); [|done].
    cbn [fst snd]. split; [reflexivity|].
    split; [apply prioritized_interval_quot|].
    split; [apply prioritized_interval_quot|].
    split; intros k -> Hk; by apply prioritized_interval_multiple_of_5.
Qed.

Lemma QueueEvent_bounds_witness :
  queue_bounds shell_engine packet_event = (80000000, 160000000).
Proof.
  pose proof (QueueEvent_bounds shell_engine packet_event) as H.
  cbv zeta in H. destruct H as (_ & _ & H).
  destruct (H ltac:(discriminate)) as (_ & _ & _ & Hmin & Hmax).
  specialize (Hmin 20000000 eq_refl ltac:(reflexivity)).
  specialize (Hmax 40000000 eq_refl ltac:(reflexivity)).
  rewrite (surjective_pairing (queue_bounds shell_engine packet_event)).
  rewrite Hmin, Hmax. reflexivity.
Defined.

(** The prioritizing keeps valid bounds valid. *)
Lemma prioritized_interval_valid (mn mx : Z) :
  0 <= mn -> mn <= mx -> mx <= max_int64 ->
  0 <= prioritized_interval mn <= prioritized_interval mx.
Proof.
  unfold max_int64. intros Hmn Hle Hmx. split.
  - change 0 with (prioritized_interval 0) at 1.
    apply prioritized_interval_mono; lia.
  - apply prioritized_interval_mono; lia.
Qed.

(** C6. With the item constructor as the specification describes it, and
    intervals that are [int64] values with [0 <= minInterval <= maxInterval],
    [QueueEvent] does not panic: it submits an item, whose bounds are again
    non-negative and ordered, because the scaling by 0.8 keeps 0 at 0 and
    keeps the order. *)
Theorem QueueEvent_cannot_fail (r : Random) (event : Event) :
  0 <= MinInterval r ->
  MinInterval r <= MaxInterval r ->
  MaxInterval r <= max_int64 ->
  (0 <= to_int (mul (of_int (MinInterval r)) c0_8)
     <= to_int (mul (of_int (MaxInterval r)) c0_8)) /\
  exists item : TimeBoundedQueueItem,
    QueueEvent r event = Continues (set_queue (queue r ++ [item]) r) /\
    (minDuration item, maxDuration item) = queue_bounds r event /\
    0 <= minDuration item <= maxDuration item.
Proof.
  intros Hmn Hle Hmx.
  pose proof (prioritized_interval_valid _ _ Hmn Hle Hmx) as Hscaled.
  split; [exact Hscaled|].
  assert (Hb : 0 <= fst (queue_bounds r event) <= snd (queue_bounds r event)).
  { unfold queue_bounds.
    destruct (PrioritizedEntities r !! EntityID event); cbn [fst snd]; lia. }
  unfold QueueEvent. destruct (queue_bounds r event) as [mn mx].
  cbn [fst snd] in Hb. unfold NewBasicTBQueueItem.
  replace ((mn <? 0) || (mx <? 0) || (mx <? mn)) with false.
  - eexists. split; [reflexivity|]. split; [reflexivity|]. exact Hb.
  - symmetry. rewrite !orb_false_iff, !Z.ltb_ge. lia.
Qed.

Lemma QueueEvent_cannot_fail_witness :
  exists item : TimeBoundedQueueItem,
    QueueEvent shell_engine packet_event =
      Continues (set_queue (queue shell_engine ++ [item]) shell_engine) /\
    (minDuration item, maxDuration item) = queue_bounds shell_engine packet_event /\
    0 <= minDuration item <= maxDuration item.
Proof.
  apply (QueueEvent_cannot_fail shell_engine packet_event).
  - change (0 <= 100000000). lia.
  - change (100000000 <= 200000000). lia.
  - change (200000000 <= 2 ^ 63 - 1). lia.
Defined.

(** * Further properties *)


(** ** More about the configuration loader *)

(** A call of [LoadConfig] that returns no error has applied every key that
    is set and leaves a valid configuration. *)
Theorem LoadConfig_success (cfg : Config) (r : Random) :
  err (LoadConfig cfg r) = None ->
  let r' := engine (LoadConfig cfg r) in
  MinInterval r' = default (MinInterval r) (minInterval cfg) /\
  MaxInterval r' = default (MinInterval r') (maxInterval cfg) /\
  PrioritizedEntities r' =
    merge_prioritized (prioritizedEntities cfg) (PrioritizedEntities r) /\
  ShellActionInterval r' =
    default (ShellActionInterval r) (shellActionInterval cfg) /\
  ShellActionCommand r' =
    default (ShellActionCommand r) (shellActionCommand cfg) /\
  FaultActionProbability r' =
    default (FaultActionProbability r) (faultActionProbability cfg) /\
  ProcResetSchedProbability r' =
    default (ProcResetSchedProbability r) (procResetSchedProbability cfg) /\
  0 <= ShellActionInterval r' /\
  bad_probability (FaultActionProbability r') = false /\
  bad_probability (ProcResetSchedProbability r') = false /\
  shelActionRoutineRunning r' =
    shelActionRoutineRunning r || (0 <? ShellActionInterval r').
Proof.
  cbv zeta. load_checks; intros He; try discriminate He.
  match goal with H : (_ <? 0) = false |- _ => apply Z.ltb_ge in H end.
  repeat split; auto.
  destruct (shelActionRoutineRunning r), (0 <? _); reflexivity.
Qed.

Lemma LoadConfig_success_witness :
  FaultActionProbability (engine (LoadConfig shell_on New)) = c0_0 /\
  shelActionRoutineRunning (engine (LoadConfig shell_on New)) = true.
Proof.
  pose proof (LoadConfig_success shell_on New eq_refl) as H. cbv zeta in H.
  destruct H as (_ & _ & _ & _ & _ & Hfp & _ & _ & _ & _ & Hrun).
  split; [exact Hfp | exact Hrun].
Defined.

(** The checks of [LoadConfig] read the engine, not the source: a value that
    an earlier call left in the engine although it rejected it (or that is
    invalid for any other reason) makes every later call fail that does not
    set that key again, whatever else the source sets. *)
Theorem LoadConfig_failure_persists (cfg : Config) (r : Random) :
  (shellActionInterval cfg = None /\ ShellActionInterval r < 0) \/
  (faultActionProbability cfg = None /\
   bad_probability (FaultActionProbability r) = true) \/
  (procResetSchedProbability cfg = None /\
   bad_probability (ProcResetSchedProbability r) = true) ->
  err (LoadConfig cfg r) <> None.
Proof.
  intros H. load_checks; try discriminate.
  destruct H as [[Hk Hv] | [[Hk Hv] | [Hk Hv]]]; rewrite Hk in *;
    cbn [default from_option id] in *.
  - match goal with H : (_ <? 0) = false |- _ => apply Z.ltb_ge in H end. lia.
  - congruence.
  - congruence.
Qed.

Lemma LoadConfig_failure_persists_witness :
  err (LoadConfig only_minInterval
         (engine (LoadConfig bad_faultActionProbability New))) <> None.
Proof.
  apply LoadConfig_failure_persists. right. left. split; reflexivity.
Defined.

(** A negative shell interval makes [LoadConfig] return before it reads the
    probabilities: they keep their values even when the source sets them,
    the flag is left alone and no routine is started. *)
Theorem LoadConfig_negative_interval (cfg : Config) (r : Random) :
  default (ShellActionInterval r) (shellActionInterval cfg) < 0 ->
  let res := LoadConfig cfg r in
  err res =
    Some (ErrShellActionInterval
            (default (ShellActionInterval r) (shellActionInterval cfg))) /\
  started res = false /\
  shelActionRoutineRunning (engine res) = shelActionRoutineRunning r /\
  FaultActionProbability (engine res) = FaultActionProbability r /\
  ProcResetSchedProbability (engine res) = ProcResetSchedProbability r.
Proof.
  intros Hneg. cbv zeta. rewrite LoadConfig_eq. cbv zeta.
  apply Z.ltb_lt in Hneg. rewrite Hneg. by repeat split.
Qed.

Lemma LoadConfig_negative_interval_witness :
  FaultActionProbability (engine (LoadConfig negative_shellActionInterval New)) =
  FaultActionProbability New.
Proof.
  apply (LoadConfig_negative_interval negative_shellActionInterval New).
  cbn. lia.
Defined.

(** [LoadConfig] never checks the two intervals: what it returns and whether
    it starts the routine do not depend on the [minInterval] and
    [maxInterval] keys, so negative and inverted intervals are accepted. *)
Theorem LoadConfig_intervals_unchecked
    (cfg : Config) (mn mx : option Z) (r : Random) :
  err (LoadConfig (with_intervals mn mx cfg) r) = err (LoadConfig cfg r) /\
  started (LoadConfig (with_intervals mn mx cfg) r) = started (LoadConfig cfg r) /\
  MinInterval (engine (LoadConfig (with_intervals mn mx cfg) r)) =
    default (MinInterval r) mn /\
  MaxInterval (engine (LoadConfig (with_intervals mn mx cfg) r)) =
    default (default (MinInterval r) mn) mx.
Proof.
  rewrite !LoadConfig_eq. cbv zeta.
  cbn [with_intervals shellActionInterval faultActionProbability
       procResetSchedProbability minInterval maxInterval prioritizedEntities
       shellActionCommand].
  repeat match goal with
         | |- context [if ?b then _ else _] =>
             match b with
             | Z.ltb _ 0 => destruct b
             | bad_probability _ => destruct b
             end
         end; by repeat split.
Qed.

(** ** Successive loads and the prioritized set *)

Lemma merge_prioritized_lookup
    (key : option (list string)) (m : gmap string bool) (ent : string) :
  merge_prioritized key m !! ent =
  if decide (ent ∈ default [] key) then Some true else m !! ent.
Proof.
  destruct key as [slice|]; cbn [merge_prioritized default from_option id].
  - apply prioritize_lookup.
  - case_decide as Hin; [by apply elem_of_nil in Hin | done].
Qed.

Lemma load_all_lookup (cfgs : list Config) (r : Random) (ent : string) :
  PrioritizedEntities (load_all cfgs r) !! ent =
  if decide (ent ∈ supplied_entities cfgs) then Some true
  else PrioritizedEntities r !! ent.
Proof.
  revert r. induction cfgs as [|cfg cfgs IH]; intros r.
  - cbn. case_decide as Hin; [by apply elem_of_nil in Hin | done].
  - cbn [load_all fold_left]. fold (load_all cfgs (engine (LoadConfig cfg r))).
    rewrite IH, LoadConfig_PrioritizedEntities.
    change (match prioritizedEntities cfg with
            | Some slice => prioritize slice (PrioritizedEntities r)
            | None => PrioritizedEntities r
            end)
      with (merge_prioritized (prioritizedEntities cfg) (PrioritizedEntities r)).
    rewrite merge_prioritized_lookup.
    unfold supplied_entities. cbn [map concat]. fold (supplied_entities cfgs).
    repeat case_decide; try done;
      rewrite elem_of_app in *; tauto.
Qed.

(** After any sequence of loads, failed ones included, the prioritized map
    holds [true] for every entity that one of the sources supplied and is
    unchanged elsewhere: the result does not depend on the order of the
    sources, on repetitions, or on which loads returned an error. *)
Theorem load_all_PrioritizedEntities (cfgs : list Config) (r : Random) :
  (forall ent : string,
     PrioritizedEntities (load_all cfgs r) !! ent =
     if decide (ent ∈ supplied_entities cfgs) then Some true
     else PrioritizedEntities r !! ent) /\
  dom (PrioritizedEntities (load_all cfgs r)) =
    dom (PrioritizedEntities r) ∪ list_to_set (supplied_entities cfgs) /\
  (forall cfgs' : list Config,
     cfgs ≡ₚ cfgs' ->
     PrioritizedEntities (load_all cfgs' r) =
     PrioritizedEntities (load_all cfgs r)).
Proof.
  split; [apply load_all_lookup|]. split.
  - apply set_eq. intros ent.
    rewrite elem_of_union, !elem_of_dom, elem_of_list_to_set, load_all_lookup.
    case_decide; [split; [by right | by eauto] | split; [by left | by intros [? | ?]]].
  - intros cfgs' Hperm. apply map_eq. intros ent. rewrite !load_all_lookup.
    assert (Hin : ent ∈ supplied_entities cfgs <-> ent ∈ supplied_entities cfgs').
    { unfold supplied_entities. rewrite !list_elem_of_In, !in_concat.
      split; intros (l & Hl & Hent); exists l; (split; [|done]);
        rewrite in_map_iff in *; destruct Hl as (c & <- & Hc); exists c;
        (split; [done|]); rewrite <- !list_elem_of_In in *.
      - by rewrite <- Hperm.
      - by rewrite Hperm. }
    repeat case_decide; tauto.
Qed.

Lemma load_all_PrioritizedEntities_witness :
  PrioritizedEntities (load_all [shell_off; bad_faultActionProbability; shell_on] New) =
  PrioritizedEntities (load_all [shell_on; shell_off; bad_faultActionProbability] New).
Proof.
  apply (proj2 (proj2 (load_all_PrioritizedEntities
                         [shell_on; shell_off; bad_faultActionProbability] New))).
  apply (Permutation_cons_append [shell_off; bad_faultActionProbability] shell_on).
Defined.

(** ** From the loader to the enqueue path *)

(** Once a source has named an entity, also in a call that returned an
    error, the events of that entity get the scaled bounds; an entity that
    neither the engine nor the source knows gets the configured ones. *)
Theorem LoadConfig_then_QueueEvent (cfg : Config) (r : Random) (event : Event) :
  let r' := engine (LoadConfig cfg r) in
  (EntityID event ∈ default [] (prioritizedEntities cfg) ->
   queue_bounds r' event =
   (prioritized_interval (default (MinInterval r) (minInterval cfg)),
    prioritized_interval
      (default (default (MinInterval r) (minInterval cfg)) (maxInterval cfg)))) /\
  (EntityID event ∉ default [] (prioritizedEntities cfg) ->
   PrioritizedEntities r !! EntityID event = None ->
   queue_bounds r' event =
   (default (MinInterval r) (minInterval cfg),
    default (default (MinInterval r) (minInterval cfg)) (maxInterval cfg))).
Proof.
  cbv zeta. unfold queue_bounds.
  destruct (LoadConfig_early_fields cfg r) as (Hmn & Hmx & _). cbv zeta in Hmn, Hmx.
  rewrite Hmx, Hmn, LoadConfig_PrioritizedEntities.
  change (match prioritizedEntities cfg with
          | Some slice => prioritize slice (PrioritizedEntities r)
          | None => PrioritizedEntities r
          end)
    with (merge_prioritized (prioritizedEntities cfg) (PrioritizedEntities r)).
  rewrite merge_prioritized_lookup. split.
  - intros Hin. by rewrite decide_True.
  - intros Hout Hnone. by rewrite decide_False, Hnone.
Qed.

Lemma LoadConfig_then_QueueEvent_witness :
  queue_bounds (engine (LoadConfig bad_faultActionProbability New)) packet_event =
  (80000000, 160000000).
Proof.
  pose proof (LoadConfig_then_QueueEvent bad_faultActionProbability New
                packet_event) as [H _].
  rewrite H; [reflexivity|]. apply elem_of_cons. by left.
Defined.

(** ** The shell routine and the loader *)

(** In a run whose calls of [LoadConfig] do not overlap, no call is left
    under way, at most one shell routine has been started and not ended (it
    is waiting for its first turn or in its loop), none unless the flag is
    up, and at most one is alive. *)
Theorem one_shell_routine_uninterrupted
    (handler : Random -> Event -> option Action * option error)
    (newShellAction : string -> list (string * string) ->
                      option Action * option error)
    (ops : list operation) :
  forallb (fun op => negb (partial_call op)) ops = true ->
  let p := run handler newShellAction ops in
  loading p = [] /\
  (shellPending p + shellRoutines p <= 1)%nat /\
  (shelActionRoutineRunning (policy p) = false ->
   shellPending p = 0%nat /\ shellRoutines p = 0%nat) /\
  (shell_loops p <= 1)%nat.
Proof.
  intros Hops. cbv zeta.
  destruct (run_shell_invariant handler newShellAction ops Hops)
    as [Hloading Hcount].
  split; [done|]. split; [|split].
  - destruct (shelActionRoutineRunning _); lia.
  - intros Hflag. rewrite Hflag in Hcount. lia.
  - unfold shell_loops. destruct (crashed _); [lia|].
    destruct (shelActionRoutineRunning _); lia.
Qed.

Lemma one_shell_routine_uninterrupted_witness :
  (shell_loops
     (run ignore_ProcSetEvent build_ShellAction
        [OpLoadConfig shell_on; OpShellEnter; OpLoadConfig shell_off;
         OpLoadConfig shell_on; OpShellEnter; OpShellTurn]) <= 1)%nat.
Proof.
  apply (one_shell_routine_uninterrupted ignore_ProcSetEvent build_ShellAction
           [OpLoadConfig shell_on; OpShellEnter; OpLoadConfig shell_off;
            OpLoadConfig shell_on; OpShellEnter; OpShellTurn]).
  reflexivity.
Defined.

(** A reconfiguration reaches the running loop at its next turn, also when
    [LoadConfig] returns an error: the turn sleeps the interval the source
    set, a negative one included, and builds its action from the command
    that is configured then. *)
Theorem reconfigured_turn
    (newShellAction : string -> list (string * string) ->
                      option Action * option error)
    (cfg : Config) (r : Random) :
  let r' := engine (LoadConfig cfg r) in
  fst (shellFaultInjectionRoutine_turn newShellAction r') =
    default (ShellActionInterval r) (shellActionInterval cfg) /\
  snd (shellFaultInjectionRoutine_turn newShellAction r') =
    match newShellAction
            (default (ShellActionCommand r) (shellActionCommand cfg))
            shell_comments with
    | (_, Some e) => Panics r' e
    | (action, None) => Continues (send action r')
    end.
Proof.
  cbv zeta. unfold shellFaultInjectionRoutine_turn. cbn [fst snd].
  destruct (LoadConfig_early_fields cfg r) as (_ & _ & Hi & Hc).
  cbv zeta in Hi, Hc. by rewrite Hi, Hc.
Qed.

(** ** The dequeue loop *)

(** The loop over two batches of released items is the loop over the first
    and then, if that did not panic, over the second from the engine the
    first left. *)
Theorem dequeueEventRoutine_app
    (handler : Random -> Event -> option Action * option error)
    (first second : list (TimeBoundedQueueItem * Z)) (r : Random) :
  dequeueEventRoutine handler r (first ++ second) =
  and_then (dequeueEventRoutine handler r first)
    (fun r' => dequeueEventRoutine handler r' second).
Proof.
  revert r. induction first as [|[qItem draw] first IH]; intros r.
  - reflexivity.
  - cbn [app dequeueEventRoutine].
    destruct (makeActionForEvent handler r (Value qItem) draw) as [action [e|]].
    + reflexivity.
    + apply IH.
Qed.





(** ** The accuracy of the scaling *)

Lemma rne_shift_error (n k : Z) :
  0 <= k -> 2 * n - 2 ^ k <= 2 * (rne_shift n k * 2 ^ k) <= 2 * n + 2 ^ k.
Proof.
  intros Hk. pose proof (pow2_pos k Hk) as Hp.
  pose proof (Z.div_mod n (2 ^ k) ltac:(lia)) as Hdm.
  pose proof (Z.mod_pos_bound n (2 ^ k) Hp) as Hr.
  unfold rne_shift.
  destruct (Z.compare_spec (2 * (n mod 2 ^ k)) (2 ^ k));
    [destruct (Z.even _)| |]; nia.
Qed.

(** Rounding to 53 bits moves a number by at most one part in [2^53]. *)
Lemma round53_error (n : Z) :
  0 < n -> (2 ^ 53 - 1) * n <= 2 ^ 53 * round53 n <= (2 ^ 53 + 1) * n.
Proof.
  intros Hn. unfold round53.
  destruct (Zdigits2 n - 53 <=? 0) eqn:Hk; [lia|].
  apply Z.leb_gt in Hk. set (k := Zdigits2 n - 53) in *.
  pose proof (rne_shift_error n k ltac:(lia)) as He.
  pose proof (Zdigits2_bounds n Hn) as Hb.
  assert (Hlow : 2 ^ (Zdigits2 n - 1) = 2 ^ 52 * 2 ^ k)
    by (rewrite <- Z.pow_add_r by lia; f_equal; lia).
  rewrite Hlow in Hb. pose proof (pow2_pos k ltac:(lia)). lia.
Qed.

Lemma scaled_accuracy (d : Z) :
  0 < d <= 2 ^ 63 ->
  2 ^ 49 * (5 * scaled d) <= (2 ^ 51 + 1) * d /\
  (2 ^ 52 - 1) * d <= 2 ^ 50 * (5 * scaled d + 5).
Proof.
  intros Hd. unfold scaled.
  pose proof (round53_pos d ltac:(lia)) as HA.
  pose proof (round53_error d ltac:(lia)) as HAe.
  set (A := round53 d) in *.
  assert (HY : 0 < A * M08) by (unfold M08; lia).
  pose proof (round53_error (A * M08) HY) as HXe.
  pose proof (round53_pos (A * M08) HY) as HX.
  set (X := round53 (A * M08)) in *.
  pose proof (Z.div_mod X (2 ^ 53) ltac:(lia)) as Hdm.
  pose proof (Z.mod_pos_bound X (2 ^ 53) ltac:(lia)) as Hr.
  set (S := X / 2 ^ 53) in *. unfold M08 in *. lia.
Qed.

(** Over all [int64] intervals the scaling [time.Duration(float64(x) * 0.8)]
    is odd, never lengthens an interval (and shortens every one that is not
    0), and is within [1 + 0.4 * |x| / 2^50] ns of four fifths of [x]. *)
Theorem prioritized_interval_accuracy (x : Z) :
  min_int64 <= x <= max_int64 ->
  prioritized_interval (- x) = - prioritized_interval x /\
  Z.abs (prioritized_interval x) <= Z.abs x /\
  (x <> 0 -> Z.abs (prioritized_interval x) < Z.abs x) /\
  2 ^ 50 * Z.abs (5 * prioritized_interval x - 4 * x)
    <= 5 * 2 ^ 50 + 2 * Z.abs x.
Proof.
  unfold min_int64, max_int64. intros Hx.
  rewrite !prioritized_interval_scaled by lia.
  rewrite Z.sgn_opp, Z.abs_opp.
  split; [lia|].
  destruct (Z.eq_dec x 0) as [-> | Hne].
  { change (scaled (Z.abs 0)) with 0. cbn. lia. }
  pose proof (scaled_accuracy (Z.abs x) ltac:(lia)) as [Hup Hlo].
  pose proof (scaled_bounds (Z.abs x) ltac:(lia)) as [Hnn _].
  set (s := scaled (Z.abs x)) in *.
  destruct (Z.lt_trichotomy x 0) as [Hn | [-> | Hp]]; [|done|].
  - rewrite (Z.sgn_neg x) by lia. lia.
  - rewrite (Z.sgn_pos x) by lia. lia.
Qed.

Lemma prioritized_interval_accuracy_witness :
  Z.abs (prioritized_interval 9223372036854775807) <= 9223372036854775807.
Proof.
  apply (prioritized_interval_accuracy 9223372036854775807).
  unfold min_int64, max_int64. lia.
Defined.
